(** * inference.py: noise-robustness evaluation and Grad-CAM explanation

    A shallow embedding of [src/inference.py].  Tensor entries are modelled
    by exact rationals ([Q]): every arithmetic step of the source is kept, in
    the order the source performs it, but rounding, infinities and NaN of the
    float32 entries are not represented.  Library calls whose result the
    program only passes on (the network, the image rendering of OpenCV) are
    parameters; calls whose result the program depends on ([torch.clamp],
    [torch.mean], [np.maximum], [os.path.join], [confusion_matrix],
    [DataFrame.to_csv], list indexing) are written out. *)

From Stdlib Require Import QArith Qminmax Qabs Lqa Sorted.
From stdpp Require Import gmap strings list pretty sorting.

Close Scope Q_scope.
Open Scope list_scope.

(** ** Tensors *)

(** A dense tensor: its shape and its entries in storage order. *)
Record tensor := Tensor { shape : list nat; data : list Q }.

(** [len(t)]: the size of the leading dimension. *)
Definition len (t : tensor) : nat := hd 0 (shape t).

(** Scalar broadcast [t * c] and [t + c]. *)
Definition tscale (t : tensor) (c : Q) : tensor :=
  Tensor (shape t) (map (fun x => x * c)%Q (data t)).

Definition tshift (t : tensor) (c : Q) : tensor :=
  Tensor (shape t) (map (fun x => x + c)%Q (data t)).

(** Elementwise [a + b] of two tensors of one shape. *)
Definition tadd (a b : tensor) : tensor :=
  Tensor (shape a) (zip_with Qplus (data a) (data b)).

(** [torch.clamp(x, lo, hi)] on one entry: [min(max(x, lo), hi)]. *)
Definition clamp (lo hi x : Q) : Q := Qmin (Qmax x lo) hi.

Definition tclamp (t : tensor) (lo hi : Q) : tensor :=
  Tensor (shape t) (map (clamp lo hi) (data t)).

(** [transforms.ToTensor()] yields pixels in [0, 1];
    [transforms.Normalize((0.5,), (0.5,))] (line 20) maps a pixel [x] to
    [(x - 0.5) / 0.5]. *)
Definition loader_normalize (x : Q) : Q := ((x - (1 # 2)) / (1 # 2))%Q.

(** ** The random generator

    The global generator of torch is a stream of standard-normal draws and
    a position in it; [randn_like] consumes as many draws as the tensor has
    entries. *)
Record generator := Generator { draws : nat -> Q; pos : nat }.

Definition randn_like (t : tensor) (g : generator) : tensor * generator :=
  (Tensor (shape t) (map (draws g) (seq (pos g) (length (data t)))),
   Generator (draws g) (pos g + length (data t))).

(** ** add_gaussian_noise (lines 30-33) *)

Definition add_gaussian_noise (t : tensor) (mean std multiplier : Q)
    (g : generator) : tensor * generator :=
  let '(z, g') := randn_like t g in
  let noise := tshift (tscale (tscale z std) multiplier) mean in
  (tclamp (tadd t noise) 0 1, g').

(** Default arguments of the source. *)
Definition default_mean : Q := 0.
Definition default_std : Q := 1 # 10.

(** The guarded call of both procedures (lines 45-46 and 123-124):
    [if noise_multiplier > 0: inputs = add_gaussian_noise(inputs, std=0.1,
    multiplier=noise_multiplier)]. *)
Definition noise_step (noise_multiplier : Q) (inputs : tensor)
    (g : generator) : tensor * generator :=
  if Qlt_le_dec 0 noise_multiplier
  then add_gaussian_noise inputs default_mean (1 # 10) noise_multiplier g
  else (inputs, g).

(** ** The network

    The trained model is an argument of both procedures.  What the program
    uses of it: the list of its modules, the forward pass (a batch to one row
    of logits per sample), and what the two hooks registered on a module
    observe: the outputs of that module during a forward pass, and the
    gradients with respect to them during a backward pass seeded by one
    logit.  The boolean is the training flag ([false] after [model.eval()]).
    A backward pass reads the tensors the forward pass left in the graph, so
    the gradients may depend on the current content of the activation log. *)
Definition layer := nat.

(** Feature maps [h, w], per-sample tensors [C, h, w] and logged batches
    [B, C, h, w], as nested lists. *)
Abbreviation map2d := (list (list Q)).
Abbreviation tensor3 := (list (list (list Q))).
Abbreviation tensor4 := (list (list (list (list Q)))).

Record Model := {
  training : bool;
  modules : list layer;
  forward : bool -> tensor -> list (list Q);
  hooked_outputs : bool -> layer -> tensor -> list tensor4;
  hooked_grads :
    bool -> layer -> tensor -> nat -> nat -> list tensor4 -> list tensor4
}.

(** ** Exceptions and Python indexing *)
Inductive exn :=
| IndexError
| ValueError
| Undefined_mean.

(** [Undefined_mean] is not an exception of the source: [torch.mean] over
    no entries yields NaN and the source goes on with it.  Rationals have no
    such value, so the model stops there and says so. *)

(** A computation over a state [S]: it returns or raises, and in both cases
    leaves the state it reached. *)
Inductive result (S A : Type) :=
| Ok (a : A) (s : S)
| Raise (e : exn) (s : S).
Arguments Ok {S A} a s.
Arguments Raise {S A} e s.

Definition M (S A : Type) : Type := S -> result S A.

#[global] Instance M_ret {S} : MRet (M S) := fun A a s => Ok a s.

#[global] Instance M_bind {S} : MBind (M S) := fun A B f c s =>
  match c s with
  | Ok a s' => f a s'
  | Raise e s' => Raise e s'
  end.

Definition raise {S A} (e : exn) : M S A := fun s => Raise e s.

Definition lift {S A} (x : exn + A) : M S A :=
  match x with
  | inl e => raise e
  | inr a => mret a
  end.

Definition get_state {S} : M S S := fun s => Ok s s.

(** The state a computation leaves, whether it returned or raised. *)
Definition final {S A} (r : result S A) : S :=
  match r with
  | Ok _ s => s
  | Raise _ s => s
  end.

Definition returned {S A} (r : result S A) : bool :=
  match r with
  | Ok _ _ => true
  | Raise _ _ => false
  end.

Definition update {S} (f : S -> S) : M S unit := fun s => Ok tt (f s).

(** [for x in xs: body x]. *)
Fixpoint for_each {S A} (xs : list A) (body : A -> M S unit) : M S unit :=
  match xs with
  | [] => mret tt
  | x :: rest => _ ← body x; for_each rest body
  end.



(** [[f x for x in l]] where [f] may raise. *)
Fixpoint traverse {A B} (f : A -> exn + B) (l : list A) : exn + list B :=
  match l with
  | [] => inr []
  | x :: rest =>
      match f x with
      | inl e => inl e
      | inr y =>
          match traverse f rest with
          | inl e => inl e
          | inr ys => inr (y :: ys)
          end
      end
  end.

(** [l[i]] for a non-negative index. *)
Definition index {A} (l : list A) (i : nat) : exn + A :=
  match l !! i with
  | Some x => inr x
  | None => inl IndexError
  end.

(** [l[z]] for a Python list: negative indices count from the end. *)
Definition py_index {A} (l : list A) (z : Z) : exn + A :=
  let n := Z.of_nat (length l) in
  let k := if (z <? 0)%Z then (n + z)%Z else z in
  if (k <? 0)%Z then inl IndexError else index l (Z.to_nat k).

(** [torch.max(outputs, 1)]: per row, the first index holding the maximum;
    a row without entries has none. *)
Fixpoint argmax_from (best : Q) (bi i : nat) (row : list Q) : nat :=
  match row with
  | [] => bi
  | x :: rest =>
      if Qlt_le_dec best x then argmax_from x i (S i) rest
      else argmax_from best bi (S i) rest
  end.

Definition argmax (row : list Q) : exn + nat :=
  match row with
  | [] => inl IndexError
  | x :: rest => inr (argmax_from x 0 1 rest)
  end.

Definition predictions (outputs : list (list Q)) : exn + list nat :=
  traverse argmax outputs.

(** ** Files

    An image file is represented by what it is rendered from.  File-system
    calls are taken to succeed: permissions, missing parent directories
    and a directory met where a file is expected are outside the model. *)
Inductive image :=
| Heatmap_jet (h : map2d)
| Confusion_plot (cm : list (list nat)) (classes : list string)
    (noise_multiplier : Q).

Inductive cell := Name (s : string) | Num (x : Q).

Inductive line := Cells (cs : list cell) | Raster (img : image).

Inductive event :=
| Makedirs (path : string)
| Forward (inputs : tensor)
| Backward (sample class : nat)
| Imwrite (path : string) (img : image)
| To_csv (path : string) (header : bool)
| Savefig (path : string).

(** What the program can observe and change outside its own variables:
    directories, the lines of each regular file, the random generator, and
    the trace of the calls made so far (most recent last). *)
Record world := World {
  dirs : gset string;
  files : gmap string (list line);
  gen : generator;
  trace : list event
}.

Definition emit (e : event) (w : world) : world :=
  World (dirs w) (files w) (gen w) (trace w ++ [e]).

Definition set_gen (g : generator) (w : world) : world :=
  World (dirs w) (files w) g (trace w).

Definition set_files (f : gmap string (list line)) (w : world) : world :=
  World (dirs w) f (gen w) (trace w).

(** [os.path.exists] on a regular file or a directory. *)
Definition path_exists (p : string) (w : world) : bool :=
  bool_decide (is_Some (files w !! p)) || bool_decide (p ∈ dirs w).

(** The noise step followed by the forward pass, as both loops do it. *)
Definition perturb (noise_multiplier : Q) (inputs : tensor) (w : world)
    : tensor * world :=
  let '(x, g) := noise_step noise_multiplier inputs (gen w) in
  (x, set_gen g w).

Definition call_model (m : Model) (mode : bool) (x : tensor) (w : world)
    : list (list Q) * world :=
  (forward m mode x, emit (Forward x) w).

(** ** The metrics of scikit-learn

    The labels that index the report and the matrix are those that occur
    in [y_true] or [y_pred], in increasing order. *)
Definition unique_labels (y_true y_pred : list nat) : list nat :=
  let ys := y_true ++ y_pred in
  filter (fun c => c ∈ ys) (seq 0 (S (max_list ys))).

(** Number of samples whose pair (actual, predicted) is [(a, b)]. *)
Definition count_pairs (a b : nat) (y_true y_pred : list nat) : nat :=
  length (filter (fun p => p = (a, b)) (zip y_true y_pred)).

(** [confusion_matrix(y_true, y_pred)]: rows are actual labels, columns are
    predicted labels; lists of different lengths are refused. *)
Definition confusion_matrix (y_true y_pred : list nat)
    : exn + list (list nat) :=
  if decide (length y_true = length y_pred) then
    let labels := unique_labels y_true y_pred in
    inr (map (fun a => map (fun b => count_pairs a b y_true y_pred) labels)
           labels)
  else inl ValueError.




(** Sample counts. *)
Definition count_class (c : nat) (ys : list nat) : nat :=
  length (filter (fun y => y = c) ys).


(** What of [classification_report(y_true, y_pred, target_names=classes)]
    the program depends on: it refuses lists of different lengths and a
    list of names whose length is not the number of labels. *)
Definition classification_report (y_true y_pred : list nat)
    (target_names : list string) : exn + unit :=
  if decide (length y_true = length y_pred) then
    if decide (length (unique_labels y_true y_pred) = length target_names)
    then inr tt else inl ValueError
  else inl ValueError.

(** The weighted F1, precision and recall are passed on to the table
    unread, so the three scoring functions are one parameter. *)
Definition scorer := list nat -> list nat -> Q * Q * Q.

(** ** run_inferece (lines 35-90) *)

(** Lines 43-55: one batch of the evaluation loop. *)
Definition eval_batch (m : Model) (noise_multiplier : Q)
    (batch : tensor * list nat) (acc : list nat * list nat)
    : M world (list nat * list nat) := fun w =>
  let '(inputs, labels) := batch in
  let '(all_preds, all_labels) := acc in
  let '(x, w1) := perturb noise_multiplier inputs w in
  let '(outputs, w2) := call_model m (training m) x w1 in
  match predictions outputs with
  | inl e => Raise e w2
  | inr preds => Ok (all_preds ++ preds, all_labels ++ labels) w2
  end.

Fixpoint eval_batches (m : Model) (noise_multiplier : Q)
    (loader : list (tensor * list nat)) (acc : list nat * list nat)
    : M world (list nat * list nat) :=
  match loader with
  | [] => mret acc
  | batch :: rest =>
      acc' ← eval_batch m noise_multiplier batch acc;
      eval_batches m noise_multiplier rest acc'
  end.

(** Lines 72-79: the table of metrics. *)
Definition metrics_header : line :=
  Cells [Name "Noise Multiplier"; Name "F1 Score"; Name "Precision";
         Name "Recall"].

Definition metrics_row (noise_multiplier f1 precision recall : Q) : line :=
  Cells [Num noise_multiplier; Num f1; Num precision; Num recall].

(** [DataFrame.to_csv(path, index=False, mode='a', header=header)] of a
    frame with the given header and rows: the lines are appended to the
    file, which is created when it is missing. *)
Definition to_csv (header_line : line) (rows : list line) (path : string)
    (header : bool) (w : world) : world :=
  let old := default [] (files w !! path) in
  let new := (if header then [header_line] else []) ++ rows in
  emit (To_csv path header) (set_files (<[path := old ++ new]> (files w)) w).

Definition write_metrics (metrics_path : string)
    (noise_multiplier f1 precision recall : Q) (w : world) : world :=
  to_csv metrics_header [metrics_row noise_multiplier f1 precision recall]
    metrics_path (negb (path_exists metrics_path w)) w.



(** Lines 82-90: [plt.savefig] replaces the file by the rendered plot. *)
Definition savefig (path : string) (img : image) (w : world) : world :=
  emit (Savefig path) (set_files (<[path := [Raster img]]> (files w)) w).

(** The whole procedure.  The loader and the class names that
    [get_test_loader] reads from disk are arguments; the printed report is
    left out. *)
Definition run_inferece (m : Model) (scores : scorer)
    (test_loader : list (tensor * list nat)) (classes : list string)
    (confusion_matrix_path metrics_path : string) (noise_multiplier : Q)
    : M world unit :=
  '(all_preds, all_labels) ←
      eval_batches m noise_multiplier test_loader ([], []);
  _ ← lift (classification_report all_labels all_preds classes);
  cm ← lift (confusion_matrix all_labels all_preds);
  let '(f1, precision, recall) := scores all_labels all_preds in
  _ ← update (write_metrics metrics_path noise_multiplier f1 precision recall);
  update (savefig confusion_matrix_path
            (Confusion_plot cm classes noise_multiplier)).

(** ** run_gradcam (lines 92-160) *)

(** The variables of the procedure that outlive one iteration: the two
    logs filled by the hooks and the running sample counter. *)
Record gc_state := Gc {
  env : world;
  gradients : list tensor4;
  activations : list tensor4;
  sample_idx : nat
}.

Definition on_env (f : world -> world) (s : gc_state) : gc_state :=
  Gc (f (env s)) (gradients s) (activations s) (sample_idx s).

Definition set_activations (a : list tensor4) (s : gc_state) : gc_state :=
  Gc (env s) (gradients s) a (sample_idx s).

(** [os.makedirs(path, exist_ok=True)] and [cv2.imwrite(path, img)]. *)
Definition makedirs (path : string) (w : world) : world :=
  emit (Makedirs path) (World ({[path]} ∪ dirs w) (files w) (gen w) (trace w)).

Definition imwrite (path : string) (img : image) (w : world) : world :=
  emit (Imwrite path img) (set_files (<[path := [Raster img]]> (files w)) w).

(** The separator of posixpath. *)
Definition sep : Ascii.ascii := Ascii.ascii_of_nat 47.

Fixpoint ends_with_sep (s : string) : bool :=
  match s with
  | EmptyString => false
  | String c EmptyString => Ascii.eqb c sep
  | String _ rest => ends_with_sep rest
  end.

(** [os.path.join(a, b)] of posixpath. *)
Definition path_join (a b : string) : string :=
  if String.prefix "/" b then b
  else if String.eqb a EmptyString || ends_with_sep a then a +:+ b
  else a +:+ "/" +:+ b.

(** [f"gradcam_sample_{sample_idx}_class_{class_name}.png"]. *)
Definition gradcam_filename (idx : nat) (class_name : string) : string :=
  "gradcam_sample_" +:+ pretty idx +:+ "_class_" +:+ class_name +:+ ".png".

(** A forward pass with the forward hook on [target]: every output of the
    target module is appended to the activation log. *)
Definition forward_hooked (m : Model) (target : layer) (x : tensor)
    : M gc_state (list (list Q)) := fun s =>
  let '(outputs, w) := call_model m false x (env s) in
  Ok outputs
     (Gc w (gradients s) (activations s ++ hooked_outputs m false target x)
        (sample_idx s)).

(** [outputs[i, c].backward(retain_graph=True)] with the backward hook on
    [target]: every gradient of an output of the target module is appended
    to the gradient log. *)
Definition backward_hooked (m : Model) (target : layer) (x : tensor)
    (i c : nat) : M gc_state unit := fun s =>
  Ok tt
     (Gc (emit (Backward i c) (env s))
        (gradients s ++ hooked_grads m false target x i c (activations s))
        (activations s) (sample_idx s)).

(** The mean of a list of entries; of no entries it is undefined. *)
Definition Qsum (xs : list Q) : Q := foldr Qplus 0%Q xs.

Definition mean (xs : list Q) : exn + Q :=
  match xs with
  | [] => inl Undefined_mean
  | _ => inr (Qsum xs / inject_Z (Z.of_nat (length xs)))%Q
  end.

(** [torch.mean(g, dim=(1, 2))] of a [C, h, w] tensor. *)
Definition spatial_means (g : tensor3) : exn + list Q :=
  traverse (fun channel => mean (concat channel)) g.

(** [activation[j, :, :] *= wj] where [activation] is the view
    [activations[k][i]]: the entries of the log are replaced. *)
Definition scale_map (wj : Q) (channel : map2d) : map2d :=
  map (map (fun v => v * wj)%Q) channel.

Definition view (log : list tensor4) (k i : nat) : option tensor3 :=
  match log !! k with
  | Some batch => batch !! i
  | None => None
  end.

Definition scale_channel (k i j : nat) (wj : Q) : M gc_state unit := fun s =>
  match view (activations s) k i with
  | None => Raise IndexError s
  | Some activation =>
    match activation !! j with
    | None => Raise IndexError s
    | Some _ =>
      Ok tt
         (set_activations
            (alter (alter (alter (scale_map wj) j) i) k (activations s)) s)
    end
  end.

(** [torch.mean(activation, dim=0)] of a [C, h, w] tensor. *)
Definition map2d_add (a b : map2d) : map2d := zip_with (zip_with Qplus) a b.

Definition channel_sum (c0 : map2d) (rest : list map2d) : map2d :=
  foldl map2d_add c0 rest.

Definition channel_mean (t : tensor3) : exn + map2d :=
  match t with
  | [] => inl Undefined_mean
  | c0 :: rest =>
      inr (map (map (fun v => v / inject_Z (Z.of_nat (length t)))%Q)
             (channel_sum c0 rest))
  end.

(** [np.maximum(heatmap, 0)]. *)
Definition relu (h : map2d) : map2d := map (map (fun v => Qmax v 0)) h.

(** [heatmap.max()]: refused on an array without entries. *)
Definition max_entry (h : map2d) : exn + Q :=
  match concat h with
  | [] => inl ValueError
  | v :: rest => inr (foldl Qmax v rest)
  end.

Definition eps : Q := 1 # 100000000.

(** [heatmap /= d]. *)
Definition divide (h : map2d) (d : Q) : map2d :=
  map (map (fun v => v / d)%Q) h.

(** One round of [for j in range(len(pooled_grad)):
    activation[j, :, :] *= pooled_grad[j]] on the view
    [activations[k][i]]. *)
Definition weighting_round (k i : nat) (pooled_grad : list Q) (j : nat)
    : M gc_state unit :=
  wj ← lift (index pooled_grad j); scale_channel k i j wj.

(** Lines 133-160: one sample of a batch.  [x] is the batch as passed to
    the model, [outputs] its logits and [preds] the predicted classes. *)
Definition gradcam_sample (m : Model) (target : layer)
    (classes : list string) (gradcam_output_dir : string) (x : tensor)
    (outputs : list (list Q)) (preds : list nat) (i : nat)
    : M gc_state unit :=
  c ← lift (index preds i);
  row ← lift (index outputs i);
  _ ← lift (index row c);
  _ ← backward_hooked m target x i c;
  s ← get_state;
  g4 ← lift (py_index (gradients s) (-1));
  g3 ← lift (index g4 i);
  pooled_grad ← lift (spatial_means g3);
  a4 ← lift (py_index (activations s) (-1));
  _ ← lift (index a4 i);
  let k := length (activations s) - 1 in
  _ ← for_each (seq 0 (length pooled_grad)) (weighting_round k i pooled_grad);
  s' ← get_state;
  activation ← lift (match view (activations s') k i with
                     | Some t => inr t
                     | None => inl IndexError
                     end);
  heatmap ← lift (channel_mean activation);
  let heatmap := relu heatmap in
  top ← lift (max_entry heatmap);
  let heatmap := divide heatmap (top + eps)%Q in
  class_name ← lift (index classes c);
  _ ← update (on_env (imwrite
         (path_join gradcam_output_dir
            (gradcam_filename (sample_idx s') class_name))
         (Heatmap_jet heatmap)));
  update (fun s => Gc (env s) (gradients s) (activations s)
                     (sample_idx s + 1)).

(** Lines 122-160: one batch. *)
Definition gradcam_batch (m : Model) (target : layer)
    (classes : list string) (gradcam_output_dir : string)
    (noise_multiplier : Q) (batch : tensor * list nat) : M gc_state unit :=
  x ← (fun s => let '(x, w) := perturb noise_multiplier batch.1 (env s) in
               Ok x (on_env (fun _ => w) s));
  outputs ← forward_hooked m target x;
  preds ← lift (predictions outputs);
  for_each (seq 0 (len x))
    (gradcam_sample m target classes gradcam_output_dir x outputs preds).

Definition run_gradcam (m : Model) (test_loader : list (tensor * list nat))
    (classes : list string) (gradcam_output_dir : string)
    (noise_multiplier : Q) : M world unit := fun w =>
  let w1 := makedirs gradcam_output_dir w in
  match py_index (modules m) (-5) with
  | inl e => Raise e w1
  | inr target_layer =>
      match for_each test_loader
              (gradcam_batch m target_layer classes gradcam_output_dir
                 noise_multiplier) (Gc w1 [] [] 0) with
      | Ok _ s => Ok tt (env s)
      | Raise e s => Raise e (env s)
      end
  end.

(** ** The heatmap as a function of the captured tensors

    The steps of lines 140-148 on the activation and the gradient of one
    sample, without the log: weight every channel, average the channels,
    clamp, normalise. *)
Definition weighted (activation : tensor3) (weights : list Q) : tensor3 :=
  zip_with (fun channel wj => scale_map wj channel) activation weights.





(** The activation of one sample after the first [n] rounds of the
    weighting loop: [n] channels weighted, the others as captured. *)
Definition partly_weighted (n : nat) (activation : tensor3)
    (weights : list Q) : tensor3 :=
  weighted (take n activation) (take n weights) ++ drop n activation.

(** The paths of the images of consecutive samples, the first of which has
    the running index [start]. *)
Definition image_paths (dir : string) (start : nat) (names : list string)
    : list string :=
  imap (fun j name => path_join dir (gradcam_filename (start + j) name))
    names.

(** ** Reading a trace *)
Definition forwarded (tr : list event) : list tensor :=
  omap (fun e => match e with Forward x => Some x | _ => None end) tr.

Definition written (tr : list event) : list (string * image) :=
  omap (fun e => match e with Imwrite p img => Some (p, img) | _ => None end)
    tr.

Definition underscore : Ascii.ascii := Ascii.ascii_of_nat 95.

(** The digits a string starts with. *)
Definition is_digit (c : Ascii.ascii) : bool :=
  let n := Ascii.nat_of_ascii c in (48 <=? n) && (n <=? 57).

Fixpoint leading_digits (s : string) : string :=
  match s with
  | EmptyString => EmptyString
  | String c rest =>
      if is_digit c then String c (leading_digits rest) else EmptyString
  end.

(** [names] are the names of the classes [cs]. *)
Definition class_names (classes : list string) (cs : list nat)
    (names : list string) : Prop :=
  Forall2 (fun c name => classes !! c = Some name) cs names.

(** Between [s] and [s'] the explainer fed the batches [xs] to the model
    and wrote one image per entry of [names], numbered from the counter of
    [s]; it created no directory. *)
Definition explains (dir : string) (s s' : gc_state) (xs : list tensor)
    (names : list string) : Prop :=
  exists tr,
    trace (env s') = trace (env s) ++ tr /\
    forwarded tr = xs /\
    map fst (written tr) = image_paths dir (sample_idx s) names /\
    sample_idx s' = sample_idx s + length names /\
    dirs (env s') = dirs (env s).

(** The directories of [s'] are those of [s] and its trace extends that
    of [s]. *)
Definition extends (s s' : gc_state) : Prop :=
  dirs (env s') = dirs (env s) /\
  exists tr, trace (env s') = trace (env s) ++ tr.

(** ** get_test_loader (lines 13-27)

    The images of the folder, decoded, converted to [num_channels] grey
    channels, resized and turned into tensors by [ToTensor], are given as
    the data set: per sample the pixels in storage order and the index of
    its class.  The function normalises every sample, and the loader
    ([batch_size=32], [shuffle=False], no [drop_last]) stacks consecutive
    samples into batches. *)
Definition batch_size : nat := 32.

(** Consecutive chunks of at most [n] elements; [fuel] bounds their number. *)
Fixpoint chunks_fuel {A} (fuel n : nat) (l : list A) : list (list A) :=
  match fuel with
  | 0 => []
  | S fuel' =>
      match l with
      | [] => []
      | _ :: _ => take n l :: chunks_fuel fuel' n (drop n l)
      end
  end.

Definition chunks {A} (n : nat) (l : list A) : list (list A) :=
  chunks_fuel (length l) n l.

(** The default collation: the samples stacked along a new leading
    dimension, the labels side by side. *)
Definition collate (num_channels : nat) (samples : list (list Q * nat))
    : tensor * list nat :=
  (Tensor [length samples; num_channels; 224; 224]
     (concat (map fst samples)),
   map snd samples).

Definition transform (sample : list Q * nat) : list Q * nat :=
  (map loader_normalize sample.1, sample.2).

Definition get_test_loader (num_channels : nat)
    (dataset : list (list Q * nat)) (classes : list string)
    : list (tensor * list nat) * list string :=
  (map (collate num_channels) (chunks batch_size (map transform dataset)),
   classes).

(** The files after the images [ws] are written in order. *)
Definition write_images (ws : list (string * image))
    (f : gmap string (list line)) : gmap string (list line) :=
  foldl (fun f '(p, img) => <[p := [Raster img]]> f) f ws.

(** ** A small model and data set

    One batch of one sample of two pixels; the hooked layer has two
    channels.  The generator yields -1, 0, 1, ... *)
Module Example.
Definition g0 : generator :=
  Generator (fun n => inject_Z (Z.of_nat n) - 1)%Q 0.
Definition x0 : tensor := Tensor [1; 1; 1; 2] [-1; 1 # 2]%Q.
Definition a3_0 : tensor3 := [[[1; 2]]; [[1; 0]]]%Q.
Definition g3_0 : tensor3 := [[[1; 1]]; [[3; 1]]]%Q.
Definition a4_0 : tensor4 := [a3_0].
Definition g4_0 : tensor4 := [g3_0].
Definition out0 : list (list Q) := [[1; 0]]%Q.
Definition m0 : Model :=
  {| training := false;
     modules := [10; 11; 12; 13; 14; 15];
     forward := fun _ _ => out0;
     hooked_outputs := fun _ _ _ => [a4_0];
     hooked_grads := fun _ _ _ _ _ _ => [g4_0] |}.
Definition short_model : Model :=
  {| training := false;
     modules := [10; 11; 12; 13];
     forward := fun _ _ => out0;
     hooked_outputs := fun _ _ _ => [a4_0];
     hooked_grads := fun _ _ _ _ _ _ => [g4_0] |}.
Definition w0 : world := World ∅ ∅ g0 [].
Definition classes0 : list string := ["cat"; "dog"].
Definition dir0 : string := "out/gradcam/".
Definition loader0 : list (tensor * list nat) := [(x0, [0])].
Definition csv0 : string := "out/metrics_noise_cnn.csv".

(** The state of the explainer after the forward pass of the batch. *)
Definition s0 : gc_state :=
  Gc (emit (Forward x0) (makedirs dir0 w0)) [] [a4_0] 0.


Definition sample0 : result gc_state unit :=
  gradcam_sample m0 11 classes0 dir0 x0 out0 [0] 0 s0.
Definition run0 : result world unit :=
  run_gradcam m0 loader0 classes0 dir0 0 w0.
Definition png0 : string := "out/gradcam/gradcam_sample_0_class_cat.png".
End Example.

(** ** More small data

    A model whose gradient channels have negative means, a data set of 33
    samples of one pixel each and one of a single sample of two pixels. *)
Module Example_more.
Import Example.
Definition m_neg : Model :=
  {| training := false;
     modules := [10; 11; 12; 13; 14; 15];
     forward := fun _ _ => out0;
     hooked_outputs := fun _ _ _ => [a4_0];
     hooked_grads := fun _ _ _ _ _ _ => [[[[[-1; -1]]; [[0; -2]]]]]%Q |}.
Definition sample_neg : result gc_state unit :=
  gradcam_sample m_neg 11 classes0 dir0 x0 out0 [0] 0 s0.
Definition sample_unnamed : result gc_state unit :=
  gradcam_sample m0 11 [] dir0 x0 out0 [0] 0 s0.
Definition ds33 : list (list Q * nat) :=
  repeat ([1 # 4]%Q, 0) 32 ++ [([3 # 4]%Q, 1)].
Definition ds1 : list (list Q * nat) := [([1 # 4; 3 # 4]%Q, 0)].
Definition one_score : scorer := fun _ _ => (1, 1, 1)%Q.
Definition plot0 : string := "out/cnn_confusion_matrix.png".
Definition eval_returns : result world unit :=
  run_inferece m0 one_score loader0 ["cat"] plot0 csv0 0 w0.
Definition eval_ds1 : result world unit :=
  run_inferece m0 one_score (get_test_loader 1 ds1 ["cat"]).1 ["cat"]
    plot0 csv0 0 w0.
Definition explain_ds1 : result world unit :=
  run_gradcam m0 (get_test_loader 1 ds1 classes0).1 classes0 dir0 0 w0.
End Example_more.

(** ** Predicates used in the statements *)

Definition in_unit (v : Q) : Prop := (0 <= v)%Q /\ (v <= 1)%Q.

(** A relation between the state before and the state after that every
    step of a computation respects. *)
Definition stable {S A} (R : S -> S -> Prop) (c : M S A) : Prop :=
  forall s, R s (final (c s)).

(** The state after a sample whose heatmap is [h]: the gradient log has
    grown by what the backward hook saw, the sample's slice of the last
    activation is replaced by [slice], one image is written. *)
Definition after_sample (m : Model) (target : layer)
    (gradcam_output_dir : string) (x : tensor) (i c : nat)
    (class_name : string) (a4 : tensor4) (slice : tensor3) (h : map2d)
    (s : gc_state) : gc_state :=
  Gc (imwrite
        (path_join gradcam_output_dir
           (gradcam_filename (sample_idx s) class_name))
        (Heatmap_jet h) (emit (Backward i c) (env s)))
     (gradients s ++ hooked_grads m false target x i c (activations s))
     (<[length (activations s) - 1 := <[i := slice]> a4]> (activations s))
     (sample_idx s + 1).

(** Maps and tensors whose entries are all zero. *)
Definition zero_map (h : map2d) : Prop := Forall (Forall (Qeq 0)) h.

Definition zero_tensor (t : tensor3) : Prop := Forall zero_map t.



(** A string of digits: it is what a string that continues with an
    underscore starts with. *)
Definition digits (s : string) : Prop :=
  forall rest, leading_digits (s +:+ String underscore rest) = s.

Definition same_files (w w' : world) : Prop :=
  files w' = files w /\ dirs w' = dirs w.

(** ** Predicates used in the further statements *)

(** [c] is the first index of [row] that holds its maximum. *)
Definition first_maximum (row : list Q) (c : nat) : Prop :=
  exists v, row !! c = Some v /\
    Forall (fun u => (u <= v)%Q) row /\
    forall j u, j < c -> row !! j = Some u -> (u < v)%Q.


(** A relation that the state reached by a failure respects. *)
Definition raise_stable {S A} (R : S -> S -> Prop) (c : M S A) : Prop :=
  forall s e s', c s = Raise e s' -> R s s'.

(** Nothing fed to the model and no image written between [s] and [s']. *)
Definition unwritten (dir : string) (s s' : gc_state) : Prop :=
  explains dir s s' [] [].

(** The files of [s'] are those of [s] with the images of the trace in
    between written over them. *)
Definition follows (s s' : gc_state) : Prop :=
  exists tr,
    trace (env s') = trace (env s) ++ tr /\
    files (env s') = write_images (written tr) (files (env s)).

(** Maps without a negative entry, and without a positive one. *)
Definition nonneg_map (h : map2d) : Prop :=
  Forall (Forall (fun v => (0 <= v)%Q)) h.

Definition nonpos_map (h : map2d) : Prop :=
  Forall (Forall (fun v => (v <= 0)%Q)) h.

(** A map of [rows] rows of [cols] entries. *)
Definition dims (rows cols : nat) (h : map2d) : Prop :=
  length h = rows /\ Forall (fun r => length r = cols) h.




(** * Properties *)

(** ** Noise injection *)

Lemma clamp_range (lo hi x : Q) : (lo <= hi)%Q ->
  (lo <= clamp lo hi x)%Q /\ (clamp lo hi x <= hi)%Q.
Proof.
  intros Hlh. unfold clamp. split.
  - apply Q.min_glb; [apply Q.le_max_r | exact Hlh].
  - apply Q.le_min_r.
Qed.

Lemma clamp_inside (lo hi x : Q) :
  (lo <= x)%Q -> (x <= hi)%Q -> (clamp lo hi x == x)%Q.
Proof.
  intros H1 H2. unfold clamp.
  rewrite (Q.max_l x lo H1). apply Q.min_l. exact H2.
Qed.

Lemma clamp_outside (lo hi x : Q) : (lo <= hi)%Q ->
  ~ ((lo <= x)%Q /\ (x <= hi)%Q) -> ~ (clamp lo hi x == x)%Q.
Proof.
  intros Hlh Hout Heq. apply Hout.
  destruct (clamp_range lo hi x Hlh) as [H1 H2].
  rewrite Heq in H1, H2. split; assumption.
Qed.

Lemma clamp_proper (lo hi x y : Q) : (x == y)%Q ->
  (clamp lo hi x == clamp lo hi y)%Q.
Proof. intros H. unfold clamp. now rewrite H. Qed.

Lemma noise_data (t : tensor) (mean std multiplier : Q) (g : generator) :
  data (add_gaussian_noise t mean std multiplier g).1 =
  zip_with (fun x z => clamp 0 1 (x + (z * std * multiplier + mean))%Q)
    (data t) (map (draws g) (seq (pos g) (length (data t)))).
Proof.
  unfold add_gaussian_noise, randn_like; simpl.
  rewrite !map_map.
  generalize (seq (pos g) (length (data t))) as ns.
  induction (data t) as [|x xs IH]; intros [|n ns]; simpl; try reflexivity.
  f_equal. apply IH.
Qed.



Lemma zip_with_Forall2_map {A B} (R : A -> A -> Prop) (f : A -> B -> A)
    (h : A -> A) (xs : list A) (ys : list B) :
  length ys = length xs ->
  (forall x y, R (f x y) (h x)) ->
  Forall2 R (zip_with f xs ys) (map h xs).
Proof.
  intros Hlen Hf. revert ys Hlen.
  induction xs as [|x xs IH]; intros [|y ys] Hlen; simpl in *;
    try discriminate; constructor; auto.
Qed.

Lemma clamped_fixed_in_unit (xs ys : list Q) :
  Forall2 Qeq ys (map (clamp 0 1) xs) -> Forall2 Qeq ys xs ->
  Forall in_unit xs.
Proof.
  revert ys. induction xs as [|x xs IH]; intros ys Hc Hi.
  - constructor.
  - inversion Hc as [|y c ys' cs Hyc Hc' E1 E2]; subst.
    inversion Hi as [|y' x' ys'' xs' Hyx Hi' E1 E2]; subst.
    constructor; [|eapply IH; eassumption].
    destruct (Qlt_le_dec x 0) as [Hneg|Hnn].
    + exfalso. apply (clamp_outside 0 1 x); [discriminate| |].
      * intros [H0 _]. apply (Qlt_not_le _ _ Hneg H0).
      * rewrite <- Hyc. exact Hyx.
    + destruct (Qlt_le_dec 1 x) as [Hbig|Hle]; [|split; assumption].
      exfalso. apply (clamp_outside 0 1 x); [discriminate| |].
      * intros [_ H1]. apply (Qlt_not_le _ _ Hbig H1).
      * rewrite <- Hyc. exact Hyx.
Qed.


Lemma loader_normalize_affine (x : Q) :
  (loader_normalize x == 2 * x - 1)%Q.
Proof. unfold loader_normalize. field. Qed.

(** C9: called directly with multiplier 0 and mean 0, the noise-injection
    function returns clamp(t, 0, 1) entry by entry (and still consumes
    draws of the generator); it changes every tensor that holds an entry
    outside [0, 1], and the loader's normalisation maps every pixel below
    one half to a negative entry; the guarded call of the two procedures
    leaves tensor and generator untouched at multiplier 0. *)
Theorem add_gaussian_noise_zero_is_clamp (t : tensor) (std : Q)
    (g : generator) :
  let out := add_gaussian_noise t 0 std 0 g in
  shape out.1 = shape t /\
  Forall2 Qeq (data out.1) (map (clamp 0 1) (data t)) /\
  pos out.2 = pos g + length (data t) /\
  (Exists (fun v => ~ in_unit v) (data t) ->
   ~ Forall2 Qeq (data out.1) (data t)) /\
  (forall x : Q, (0 <= x)%Q -> (x < 1 # 2)%Q ->
     (-1 <= loader_normalize x)%Q /\ ~ in_unit (loader_normalize x)) /\
  noise_step 0 t g = (t, g).
Proof.
  cbv zeta.
  assert (Hc : Forall2 Qeq (data (add_gaussian_noise t 0 std 0 g).1)
                 (map (clamp 0 1) (data t))).
  { rewrite noise_data. apply zip_with_Forall2_map.
    - now rewrite length_map, length_seq.
    - intros x z. apply clamp_proper. ring. }
  repeat split; try assumption.
  - intros Hex Hid.
    pose proof (clamped_fixed_in_unit _ _ Hc Hid) as Hall.
    apply List.Exists_exists in Hex as (v & Hin & Hout).
    apply Hout. exact (proj1 (List.Forall_forall _ _) Hall v Hin).
  - rewrite loader_normalize_affine. lra.
  - unfold in_unit. rewrite loader_normalize_affine. lra.
Qed.

(** ** Reasoning about computations *)

Lemma bind_run {S A B} (c : M S A) (f : A -> M S B) (s : S) :
  (c ≫= f) s =
  match c s with
  | Ok a s' => f a s'
  | Raise e s' => Raise e s'
  end.
Proof. reflexivity. Qed.

Lemma lift_inr {S A} (a : A) (s : S) : lift (inr a) s = Ok a s.
Proof. reflexivity. Qed.


Lemma for_each_app {S A} (xs ys : list A) (body : A -> M S unit) (s : S) :
  for_each (xs ++ ys) body s =
  match for_each xs body s with
  | Ok _ s' => for_each ys body s'
  | Raise e s' => Raise e s'
  end.
Proof.
  revert s. induction xs as [|x xs IH]; intros s; simpl.
  - reflexivity.
  - rewrite !bind_run. destruct (body x s); [apply IH | reflexivity].
Qed.

Section Stable.
Context {S : Type} (R : S -> S -> Prop).
Hypothesis R_refl : forall s, R s s.
Hypothesis R_trans : forall s1 s2 s3, R s1 s2 -> R s2 s3 -> R s1 s3.

Lemma stable_ret {A} (a : A) : stable R (mret a : M S A).
Proof. intros s. apply R_refl. Qed.

Lemma stable_raise {A} (e : exn) : stable R (raise e : M S A).
Proof. intros s. apply R_refl. Qed.

Lemma stable_lift {A} (x : exn + A) : stable R (lift x : M S A).
Proof. destruct x; [apply stable_raise | apply stable_ret]. Qed.

Lemma stable_get : stable R (get_state : M S S).
Proof. intros s. apply R_refl. Qed.

Lemma stable_update (f : S -> S) :
  (forall s, R s (f s)) -> stable R (update f).
Proof. intros Hf s. apply Hf. Qed.

Lemma stable_bind {A B} (c : M S A) (f : A -> M S B) :
  stable R c -> (forall a, stable R (f a)) -> stable R (c ≫= f).
Proof.
  intros Hc Hf s. rewrite bind_run. specialize (Hc s).
  destruct (c s) as [a s'|e s']; simpl in *; [|exact Hc].
  eapply R_trans; [exact Hc | apply Hf].
Qed.

Lemma stable_for_each {A} (xs : list A) (body : A -> M S unit) :
  (forall x, stable R (body x)) -> stable R (for_each xs body).
Proof.
  intros Hb. induction xs as [|x xs IH]; simpl.
  - apply stable_ret.
  - apply stable_bind; [apply Hb | intros _; exact IH].
Qed.
End Stable.

(** ** The weighting loop writes through the view *)

Lemma alter_insert {A} (g : A -> A) (l : list A) (k : nat) (y : A) :
  alter g k (<[k:=y]> l) = <[k:=g y]> l.
Proof. rewrite !list_insert_alter, list_alter_alter_eq. reflexivity. Qed.

Lemma view_insert (log : list tensor4) (k i : nat) (a4 : tensor4)
    (t : tensor3) :
  k < length log -> i < length a4 ->
  view (<[k:=<[i:=t]> a4]> log) k i = Some t.
Proof.
  intros Hk Hi. unfold view.
  rewrite list_lookup_insert_eq by exact Hk.
  apply list_lookup_insert_eq. exact Hi.
Qed.

Lemma view_Some (log : list tensor4) (k i : nat) (a4 : tensor4)
    (t : tensor3) :
  log !! k = Some a4 -> a4 !! i = Some t -> view log k i = Some t.
Proof. intros Hk Hi. unfold view. now rewrite Hk. Qed.

Lemma partly_weighted_0 (a3 : tensor3) (ws : list Q) :
  partly_weighted 0 a3 ws = a3.
Proof. reflexivity. Qed.

Lemma partly_weighted_all (a3 : tensor3) (ws : list Q) :
  length ws = length a3 ->
  partly_weighted (length ws) a3 ws = weighted a3 ws.
Proof.
  intros Hlen. unfold partly_weighted.
  rewrite firstn_all. rewrite Hlen, firstn_all, drop_all.
  apply app_nil_r.
Qed.

Lemma length_weighted_take (n : nat) (a3 : tensor3) (ws : list Q) :
  n <= length ws -> n <= length a3 ->
  length (weighted (take n a3) (take n ws)) = n.
Proof.
  intros H1 H2. unfold weighted.
  rewrite length_zip_with, !length_take. lia.
Qed.

Lemma partly_weighted_S (n : nat) (a3 : tensor3) (ws : list Q)
    (ch : map2d) (wn : Q) :
  a3 !! n = Some ch -> ws !! n = Some wn ->
  alter (scale_map wn) n (partly_weighted n a3 ws) =
  partly_weighted (S n) a3 ws.
Proof.
  intros Hch Hwn.
  pose proof (lookup_lt_Some _ _ _ Hch) as Hn1.
  pose proof (lookup_lt_Some _ _ _ Hwn) as Hn2.
  unfold partly_weighted.
  rewrite alter_app_r_alt
    by (rewrite length_weighted_take; lia).
  rewrite length_weighted_take by lia.
  rewrite Nat.sub_diag, (drop_S _ _ _ Hch). simpl.
  rewrite (take_S_r _ _ _ Hch), (take_S_r _ _ _ Hwn).
  unfold weighted at 2.
  rewrite zip_with_app by (rewrite !length_take; lia).
  simpl. rewrite <- app_assoc. reflexivity.
Qed.

Lemma length_partly_weighted (n : nat) (a3 : tensor3) (ws : list Q) :
  n <= length ws -> n <= length a3 ->
  length (partly_weighted n a3 ws) = length a3.
Proof.
  intros H1 H2. unfold partly_weighted.
  rewrite length_app, length_weighted_take, length_drop by lia. lia.
Qed.

Lemma lookup_partly_weighted_ge (n j : nat) (a3 : tensor3) (ws : list Q) :
  n <= length ws -> n <= length a3 -> n <= j ->
  partly_weighted n a3 ws !! j = a3 !! j.
Proof.
  intros H1 H2 Hj. unfold partly_weighted.
  rewrite lookup_app_r by (rewrite length_weighted_take; lia).
  rewrite length_weighted_take by lia.
  rewrite lookup_drop. f_equal. lia.
Qed.

Lemma weighting_loop (k i n : nat) (ws : list Q) (s : gc_state)
    (a4 : tensor4) (a3 : tensor3) :
  activations s !! k = Some a4 -> a4 !! i = Some a3 ->
  n <= length ws -> n <= length a3 ->
  for_each (seq 0 n) (weighting_round k i ws) s =
  Ok tt (set_activations
           (<[k:=<[i:=partly_weighted n a3 ws]> a4]> (activations s)) s).
Proof.
  intros Hk Hi. 
  pose proof (lookup_lt_Some _ _ _ Hk) as Hklt.
  pose proof (lookup_lt_Some _ _ _ Hi) as Hilt.
  induction n as [|n IH]; intros Hn1 Hn2.
  - simpl. rewrite partly_weighted_0.
    rewrite (list_insert_id a4 i a3 Hi), (list_insert_id _ k a4 Hk).
    destruct s; reflexivity.
  - rewrite seq_S, for_each_app, IH by lia. simpl.
    destruct (lookup_lt_is_Some_2 ws n) as [wn Hwn]; [lia|].
    destruct (lookup_lt_is_Some_2 a3 n) as [ch Hch]; [lia|].
    unfold weighting_round. rewrite !bind_run.
    unfold index. rewrite Hwn, lift_inr.
    unfold scale_channel. cbn [activations set_activations].
    rewrite view_insert by assumption.
    rewrite lookup_partly_weighted_ge, Hch by lia.
    rewrite !alter_insert, (partly_weighted_S n a3 ws ch wn Hch Hwn).
    reflexivity.
Qed.

(** ** Python indexing *)

Lemma py_index_from_end {A} (l : list A) (k : nat) :
  0 < k <= length l ->
  py_index l (- Z.of_nat k) = index l (length l - k).
Proof.
  intros [Hk1 Hk2]. unfold py_index. cbv zeta.
  destruct (Z.ltb_spec (- Z.of_nat k) 0) as [_|Hge]; [|lia].
  destruct (Z.ltb_spec (Z.of_nat (length l) + - Z.of_nat k) 0) as [Hlt|_];
    [lia|].
  f_equal. lia.
Qed.

Lemma py_index_too_short {A} (l : list A) (k : nat) :
  length l < k -> py_index l (- Z.of_nat k) = inl IndexError.
Proof.
  intros Hk. unfold py_index. cbv zeta.
  destruct (Z.ltb_spec (- Z.of_nat k) 0) as [_|Hge]; [|lia].
  destruct (Z.ltb_spec (Z.of_nat (length l) + - Z.of_nat k) 0) as [_|Hge];
    [reflexivity | lia].
Qed.

Lemma py_index_last {A} (l : list A) (x : A) :
  last l = Some x -> py_index l (-1) = inr x.
Proof.
  intros Hlast. rewrite last_lookup in Hlast.
  pose proof (lookup_lt_Some _ _ _ Hlast) as Hlt.
  change (-1)%Z with (- Z.of_nat 1)%Z.
  rewrite py_index_from_end by lia.
  unfold index. replace (length l - 1) with (pred (length l)) by lia.
  now rewrite Hlast.
Qed.

Lemma index_Some {A} (l : list A) (i : nat) (x : A) :
  l !! i = Some x -> index l i = inr x.
Proof. intros H. unfold index. now rewrite H. Qed.

(** ** One sample of the explainer *)


Lemma py_index_last_None {A} (l : list A) :
  last l = None -> py_index l (-1) = inl IndexError.
Proof.
  intros Hlast. apply last_None in Hlast. subst l. reflexivity.
Qed.

Lemma weighting_loop_overrun (k i : nat) (ws : list Q) (s : gc_state)
    (a4 : tensor4) (a3 : tensor3) :
  activations s !! k = Some a4 -> a4 !! i = Some a3 ->
  length a3 < length ws ->
  returned (for_each (seq 0 (length ws)) (weighting_round k i ws) s) = false.
Proof.
  intros Hk Hi Hlt.
  replace (length ws) with (length a3 + S (length ws - S (length a3)))
    at 1 by lia.
  rewrite seq_app, for_each_app.
  rewrite (weighting_loop k i (length a3) ws s a4 a3) by (assumption || lia).
  simpl. rewrite bind_run. unfold weighting_round. rewrite bind_run.
  destruct (lookup_lt_is_Some_2 ws (length a3)) as [w Hw]; [lia|].
  rewrite (index_Some _ _ _ Hw), lift_inr.
  unfold scale_channel. cbn [activations set_activations].
  rewrite view_insert by (eapply lookup_lt_Some; eassumption).
  rewrite lookup_ge_None_2; [reflexivity|].
  rewrite length_partly_weighted; lia.
Qed.

Lemma gradcam_sample_inv (m : Model) (target : layer)
    (classes : list string) (dir : string) (x : tensor)
    (outputs : list (list Q)) (preds : list nat) (i : nat)
    (s s' : gc_state) :
  gradcam_sample m target classes dir x outputs preds i s = Ok tt s' ->
  exists c row logit g4 a4 g3 a3 ws avg top name,
    preds !! i = Some c /\
    outputs !! i = Some row /\ row !! c = Some logit /\
    last (gradients s ++ hooked_grads m false target x i c (activations s))
      = Some g4 /\
    g4 !! i = Some g3 /\
    spatial_means g3 = inr ws /\
    last (activations s) = Some a4 /\
    a4 !! i = Some a3 /\
    length ws <= length a3 /\
    channel_mean (partly_weighted (length ws) a3 ws) = inr avg /\
    max_entry (relu avg) = inr top /\
    classes !! c = Some name /\
    s' = after_sample m target dir x i c name a4
           (partly_weighted (length ws) a3 ws)
           (divide (relu avg) (top + eps)%Q) s.
Proof.
  intros Hrun.
  destruct (preds !! i) as [c|] eqn:Hc; cycle 1.
  { unfold gradcam_sample in Hrun. rewrite bind_run in Hrun.
    unfold index in Hrun. rewrite Hc in Hrun. discriminate. }
  destruct (outputs !! i) as [row|] eqn:Hrow; cycle 1.
  { unfold gradcam_sample in Hrun.
    rewrite bind_run, (index_Some _ _ _ Hc), lift_inr, bind_run in Hrun.
    unfold index in Hrun. rewrite Hrow in Hrun. discriminate. }
  destruct (row !! c) as [logit|] eqn:Hlogit; cycle 1.
  { unfold gradcam_sample in Hrun.
    rewrite bind_run, (index_Some _ _ _ Hc), lift_inr,
      bind_run, (index_Some _ _ _ Hrow), lift_inr, bind_run in Hrun.
    unfold index in Hrun. rewrite Hlogit in Hrun. discriminate. }
  unfold gradcam_sample in Hrun.
  rewrite bind_run, (index_Some _ _ _ Hc), lift_inr,
    bind_run, (index_Some _ _ _ Hrow), lift_inr,
    bind_run, (index_Some _ _ _ Hlogit), lift_inr in Hrun.
  rewrite bind_run in Hrun. unfold backward_hooked at 1 in Hrun.
  rewrite bind_run in Hrun. unfold get_state at 1 in Hrun.
  cbn [gradients activations] in Hrun.
  rewrite bind_run in Hrun.
  destruct (last (gradients s ++
              hooked_grads m false target x i c (activations s)))
    as [g4|] eqn:Hg4;
    [rewrite (py_index_last _ _ Hg4), lift_inr in Hrun
    |rewrite (py_index_last_None _ Hg4) in Hrun; discriminate].
  rewrite bind_run in Hrun.
  destruct (g4 !! i) as [g3|] eqn:Hg3;
    [rewrite (index_Some _ _ _ Hg3), lift_inr in Hrun
    |unfold index in Hrun; rewrite Hg3 in Hrun; discriminate].
  rewrite bind_run in Hrun.
  destruct (spatial_means g3) as [e|ws] eqn:Hws; [discriminate|].
  rewrite lift_inr, bind_run in Hrun.
  destruct (last (activations s)) as [a4|] eqn:Ha4;
    [rewrite (py_index_last _ _ Ha4), lift_inr in Hrun
    |rewrite (py_index_last_None _ Ha4) in Hrun; discriminate].
  rewrite bind_run in Hrun.
  destruct (a4 !! i) as [a3|] eqn:Ha3;
    [rewrite (index_Some _ _ _ Ha3), lift_inr in Hrun
    |unfold index in Hrun; rewrite Ha3 in Hrun; discriminate].
  pose proof Ha4 as Hk. rewrite last_lookup in Hk.
  replace (pred (length (activations s)))
    with (length (activations s) - 1) in Hk by lia.
  rewrite bind_run in Hrun.
  destruct (le_lt_dec (length ws) (length a3)) as [Hlen|Hlen]; cycle 1.
  { pose proof (weighting_loop_overrun _ i ws
      {| env := emit (Backward i c) (env s);
         gradients := gradients s ++
           hooked_grads m false target x i c (activations s);
         activations := activations s;
         sample_idx := sample_idx s |} a4 a3 Hk Ha3 Hlen) as Hov.
    match type of Hrun with
    | match ?r with _ => _ end = _ => destruct r; [discriminate Hov|]
    end.
    discriminate. }
  rewrite (weighting_loop _ i (length ws) ws _ a4 a3) in Hrun
    by (assumption || lia).
  rewrite bind_run in Hrun. unfold get_state at 1 in Hrun.
  cbn [activations set_activations] in Hrun.
  rewrite view_insert in Hrun by (eapply lookup_lt_Some; eassumption).
  rewrite bind_run, lift_inr, bind_run in Hrun.
  destruct (channel_mean (partly_weighted (length ws) a3 ws))
    as [e|avg] eqn:Havg; [discriminate|].
  rewrite lift_inr, bind_run in Hrun.
  destruct (max_entry (relu avg)) as [e|top] eqn:Htop; [discriminate|].
  rewrite lift_inr, bind_run in Hrun.
  destruct (classes !! c) as [name|] eqn:Hname;
    [rewrite (index_Some _ _ _ Hname), lift_inr in Hrun
    |unfold index in Hrun; rewrite Hname in Hrun; discriminate].
  exists c, row, logit, g4, a4, g3, a3, ws, avg, top, name.
  repeat (split; [assumption || reflexivity|]).
  injection Hrun as <-. reflexivity.
Qed.

(** ** The arithmetic of the heatmap *)

Lemma traverse_length {A B} (f : A -> exn + B) (l : list A) (ys : list B) :
  traverse f l = inr ys -> length ys = length l.
Proof.
  revert ys. induction l as [|x l IH]; intros ys H; simpl in H.
  - injection H as <-. reflexivity.
  - destruct (f x) as [e|y]; [discriminate|].
    destruct (traverse f l) as [e|ys']; [discriminate|].
    injection H as <-. simpl. f_equal. now apply IH.
Qed.

Lemma foldl_Qmax_init (v : Q) (l : list Q) : (v <= foldl Qmax v l)%Q.
Proof.
  revert v. induction l as [|x l IH]; intros v; simpl.
  - apply Qle_refl.
  - eapply Qle_trans; [apply Q.le_max_l | apply IH].
Qed.

Lemma foldl_Qmax_upper (v : Q) (l : list Q) (x : Q) :
  In x l -> (x <= foldl Qmax v l)%Q.
Proof.
  revert v. induction l as [|y l IH]; intros v Hin; simpl in *.
  - contradiction.
  - destruct Hin as [->|Hin]; [|now apply IH].
    eapply Qle_trans; [apply Q.le_max_r | apply foldl_Qmax_init].
Qed.

Lemma max_entry_upper (h : map2d) (top : Q) :
  max_entry h = inr top ->
  Forall (Forall (fun v => (v <= top)%Q)) h.
Proof.
  unfold max_entry. intros Htop.
  destruct (concat h) as [|v rest] eqn:Hcat; [discriminate|].
  injection Htop as <-.
  apply List.Forall_forall. intros rowv Hrow.
  apply List.Forall_forall. intros x Hx.
  assert (Hin : In x (v :: rest)).
  { rewrite <- Hcat. apply in_concat. eauto. }
  destruct Hin as [->|Hin];
    [apply foldl_Qmax_init | now apply foldl_Qmax_upper].
Qed.

Lemma relu_nonneg (h : map2d) :
  Forall (Forall (fun v => (0 <= v)%Q)) (relu h).
Proof.
  unfold relu. apply List.Forall_forall. intros rowv Hrow.
  apply in_map_iff in Hrow as (r & <- & _).
  apply List.Forall_forall. intros x Hx.
  apply in_map_iff in Hx as (v & <- & _). apply Q.le_max_r.
Qed.

Lemma max_entry_relu_nonneg (h : map2d) (top : Q) :
  max_entry (relu h) = inr top -> (0 <= top)%Q.
Proof.
  intros Htop. pose proof (max_entry_upper _ _ Htop) as Hup.
  pose proof (relu_nonneg h) as Hnn.
  unfold max_entry in Htop.
  destruct (concat (relu h)) as [|v rest] eqn:Hcat; [discriminate|].
  assert (Hin : In v (concat (relu h))) by (rewrite Hcat; now left).
  apply in_concat in Hin as (rowv & Hrow & Hv).
  pose proof (proj1 (List.Forall_forall _ _) Hup rowv Hrow) as Hup'.
  pose proof (proj1 (List.Forall_forall _ _) Hnn rowv Hrow) as Hnn'.
  eapply Qle_trans;
    [exact (proj1 (List.Forall_forall _ _) Hnn' v Hv)
    |exact (proj1 (List.Forall_forall _ _) Hup' v Hv)].
Qed.

Lemma eps_positive : (0 < eps)%Q.
Proof. reflexivity. Qed.

(** The divisor of the normalisation is never zero. *)
Lemma divisor_positive (h : map2d) (top : Q) :
  max_entry (relu h) = inr top -> (0 < top + eps)%Q.
Proof.
  intros Htop. pose proof (max_entry_relu_nonneg _ _ Htop).
  pose proof eps_positive. lra.
Qed.

Lemma divide_in_unit (h : map2d) (d top : Q) :
  (0 < d)%Q -> (top <= d)%Q ->
  Forall (Forall (fun v => (0 <= v)%Q)) h ->
  Forall (Forall (fun v => (v <= top)%Q)) h ->
  Forall (Forall in_unit) (divide h d).
Proof.
  intros Hd Htd Hnn Hup. unfold divide.
  apply List.Forall_forall. intros rowv Hrow.
  apply in_map_iff in Hrow as (r & <- & Hr).
  apply List.Forall_forall. intros x Hx.
  apply in_map_iff in Hx as (v & <- & Hv).
  pose proof (proj1 (List.Forall_forall _ _)
                (proj1 (List.Forall_forall _ _) Hnn r Hr) v Hv) as H0.
  pose proof (proj1 (List.Forall_forall _ _)
                (proj1 (List.Forall_forall _ _) Hup r Hr) v Hv) as H1.
  simpl in H0, H1. split.
  - apply Qle_shift_div_l; [exact Hd | lra].
  - apply Qle_shift_div_r; [exact Hd | lra].
Qed.

Lemma divide_zero (h : map2d) (d : Q) :
  Forall (Forall (Qeq 0)) h -> Forall (Forall (Qeq 0)) (divide h d).
Proof.
  intros Hz. unfold divide.
  apply List.Forall_forall. intros rowv Hrow.
  apply in_map_iff in Hrow as (r & <- & Hr).
  apply List.Forall_forall. intros x Hx.
  apply in_map_iff in Hx as (v & <- & Hv).
  pose proof (proj1 (List.Forall_forall _ _)
                (proj1 (List.Forall_forall _ _) Hz r Hr) v Hv) as H0.
  simpl in H0. rewrite <- H0. unfold Qdiv. ring.
Qed.

Lemma normalised_in_unit (avg : map2d) (top : Q) :
  max_entry (relu avg) = inr top ->
  Forall (Forall in_unit) (divide (relu avg) (top + eps)%Q).
Proof.
  intros Htop. apply (divide_in_unit _ _ top).
  - eapply divisor_positive; eassumption.
  - pose proof eps_positive. lra.
  - apply relu_nonneg.
  - now apply max_entry_upper.
Qed.

Lemma Forall_map_intro {A B} (P : A -> Prop) (R : B -> Prop) (f : A -> B)
    (l : list A) :
  (forall x, P x -> R (f x)) -> Forall P l -> Forall R (map f l).
Proof.
  intros Hf Hl. induction Hl; simpl; constructor; auto.
Qed.

Lemma Forall_zip_with_intro {A B C} (P : A -> Prop) (R : B -> Prop)
    (T : C -> Prop) (f : A -> B -> C) (l : list A) (k : list B) :
  (forall x y, P x -> R y -> T (f x y)) ->
  Forall P l -> Forall R k -> Forall T (zip_with f l k).
Proof.
  intros Hf Hl. revert k.
  induction Hl as [|x l Hx Hl IH]; intros k Hk; simpl; [constructor|].
  destruct Hk as [|y k Hy Hk]; constructor; auto.
Qed.

Lemma zero_map_entries (f : Q -> Q) (h : map2d) :
  (forall v, (0 == v)%Q -> (0 == f v)%Q) ->
  zero_map h -> zero_map (map (map f) h).
Proof.
  intros Hf. apply Forall_map_intro. intros r.
  apply Forall_map_intro. exact Hf.
Qed.

Lemma zero_scale_map (w : Q) (h : map2d) :
  zero_map h -> zero_map (scale_map w h).
Proof.
  apply zero_map_entries. intros v Hv. rewrite <- Hv. ring.
Qed.

Lemma zero_map2d_add (a b : map2d) :
  zero_map a -> zero_map b -> zero_map (map2d_add a b).
Proof.
  apply Forall_zip_with_intro. intros r1 r2.
  apply Forall_zip_with_intro. intros x y Hx Hy.
  rewrite <- Hx, <- Hy. reflexivity.
Qed.

Lemma zero_channel_sum (c0 : map2d) (rest : tensor3) :
  zero_map c0 -> zero_tensor rest -> zero_map (channel_sum c0 rest).
Proof.
  intros H0 Hrest. unfold channel_sum. revert c0 H0.
  induction Hrest as [|c rest Hc Hrest IH]; intros c0 H0; simpl.
  - exact H0.
  - apply IH. now apply zero_map2d_add.
Qed.

Lemma zero_channel_mean (t : tensor3) (avg : map2d) :
  zero_tensor t -> channel_mean t = inr avg -> zero_map avg.
Proof.
  intros Ht Havg. destruct t as [|c0 rest]; [discriminate|].
  injection Havg as <-. inversion Ht; subst.
  apply zero_map_entries.
  - intros v Hv. rewrite <- Hv. unfold Qdiv. ring.
  - now apply zero_channel_sum.
Qed.

Lemma zero_relu (h : map2d) : zero_map h -> zero_map (relu h).
Proof.
  apply zero_map_entries. intros v Hv. rewrite <- Hv. reflexivity.
Qed.

Lemma zero_partly_weighted (n : nat) (a3 : tensor3) (ws : list Q) :
  zero_tensor a3 -> zero_tensor (partly_weighted n a3 ws).
Proof.
  intros Hz. unfold partly_weighted, zero_tensor.
  apply Forall_app. split.
  - unfold weighted.
    apply (Forall_zip_with_intro zero_map (fun _ => True)).
    + intros ch w Hch _. now apply zero_scale_map.
    + now apply Forall_take.
    + apply List.Forall_forall. trivial.
  - now apply Forall_drop.
Qed.


Lemma spatial_means_length (g3 : tensor3) (ws : list Q) :
  spatial_means g3 = inr ws -> length ws = length g3.
Proof. apply traverse_length. Qed.

Lemma trace_after_sample (m : Model) (target : layer) (dir : string)
    (x : tensor) (i c : nat) (name : string) (a4 : tensor4)
    (slice : tensor3) (h : map2d) (s : gc_state) :
  trace (env (after_sample m target dir x i c name a4 slice h s)) =
  trace (env s) ++
    [Backward i c;
     Imwrite (path_join dir (gradcam_filename (sample_idx s) name))
       (Heatmap_jet h)].
Proof. simpl. now rewrite <- app_assoc. Qed.

Lemma written_app (t1 t2 : list event) :
  written (t1 ++ t2) = written t1 ++ written t2.
Proof. apply omap_app. Qed.

Lemma forwarded_app (t1 t2 : list event) :
  forwarded (t1 ++ t2) = forwarded t1 ++ forwarded t2.
Proof. apply omap_app. Qed.

Lemma lookup_partly_weighted_lt (n j : nat) (a3 : tensor3) (ws : list Q)
    (ch : map2d) (w : Q) :
  j < n -> a3 !! j = Some ch -> ws !! j = Some w ->
  partly_weighted n a3 ws !! j = Some (scale_map w ch).
Proof.
  intros Hj Hch Hw. unfold partly_weighted, weighted.
  apply lookup_app_l_Some. rewrite lookup_zip_with.
  rewrite !lookup_take_lt by exact Hj. rewrite Hch, Hw. reflexivity.
Qed.

Lemma view_insert_other (log : list tensor4) (k i k' i' : nat)
    (a4 : tensor4) (t : tensor3) :
  log !! k = Some a4 -> (k', i') <> (k, i) ->
  view (<[k:=<[i:=t]> a4]> log) k' i' = view log k' i'.
Proof.
  intros Hk Hne. unfold view.
  destruct (decide (k' = k)) as [->|Hkk].
  - rewrite list_lookup_insert_eq by (eapply lookup_lt_Some; eassumption).
    rewrite Hk. apply list_lookup_insert_ne. congruence.
  - rewrite list_lookup_insert_ne by congruence. reflexivity.
Qed.


Lemma written_after_sample (m : Model) (target : layer) (dir : string)
    (x : tensor) (i c : nat) (name : string) (a4 : tensor4)
    (slice : tensor3) (h : map2d) (s : gc_state) :
  written (trace (env (after_sample m target dir x i c name a4 slice h s))) =
  written (trace (env s)) ++
    [(path_join dir (gradcam_filename (sample_idx s) name), Heatmap_jet h)].
Proof. rewrite trace_after_sample, written_app. reflexivity. Qed.

(** C4: for every sample the explainer processes, whatever activation and
    gradient were captured, every entry of the normalised heatmap that is
    written lies in [0, 1]; the divisor (maximum plus epsilon) is positive,
    so when the clamped weighted map is all zeros (in particular when the
    captured activation is all zeros) the normalised map is all zeros. *)
Theorem heatmap_in_unit_range (m : Model) (target : layer)
    (classes : list string) (dir : string) (x : tensor)
    (outputs : list (list Q)) (preds : list nat) (i : nat)
    (s s' : gc_state) :
  gradcam_sample m target classes dir x outputs preds i s = Ok tt s' ->
  exists a4 a3 ws avg top p,
    last (activations s) = Some a4 /\ a4 !! i = Some a3 /\
    channel_mean (partly_weighted (length ws) a3 ws) = inr avg /\
    max_entry (relu avg) = inr top /\
    (0 < top + eps)%Q /\
    let h := divide (relu avg) (top + eps)%Q in
    written (trace (env s')) =
      written (trace (env s)) ++ [(p, Heatmap_jet h)] /\
    Forall (Forall in_unit) h /\
    (zero_map (relu avg) -> zero_map h) /\
    (zero_tensor a3 -> zero_map h).
Proof.
  intros Hrun.
  apply gradcam_sample_inv in Hrun
    as (c & row & logit & g4 & a4 & g3 & a3 & ws & avg & top & name
        & Hc & _ & _ & Hg4 & Hg3 & Hws & Ha4 & Ha3 & Hlen & Havg
        & Htop & Hname & ->).
  exists a4, a3, ws, avg, top,
    (path_join dir (gradcam_filename (sample_idx s) name)).
  repeat (split; [assumption|]).
  split; [eapply divisor_positive; eassumption|].
  cbv zeta. split; [apply written_after_sample|].
  split; [now apply normalised_in_unit|].
  split; [apply divide_zero|].
  intros Hz. apply divide_zero, zero_relu.
  eapply zero_channel_mean; [|exact Havg].
  now apply zero_partly_weighted.
Qed.

(** C10: the weighting loop multiplies through a view of the last entry of
    the activation log.  After a sample is processed the log has as many
    entries as before, the sample's slice of the last entry holds every
    channel multiplied by its gradient weight, and every other slice of
    every entry is as it was. *)
Theorem weighting_mutates_log (m : Model) (target : layer)
    (classes : list string) (dir : string) (x : tensor)
    (outputs : list (list Q)) (preds : list nat) (i : nat)
    (s s' : gc_state) :
  gradcam_sample m target classes dir x outputs preds i s = Ok tt s' ->
  let k := length (activations s) - 1 in
  exists a4 a3 g4 g3 ws slice,
    last (activations s) = Some a4 /\ a4 !! i = Some a3 /\
    last (gradients s') = Some g4 /\ g4 !! i = Some g3 /\
    spatial_means g3 = inr ws /\
    length (activations s') = length (activations s) /\
    view (activations s) k i = Some a3 /\
    view (activations s') k i = Some slice /\
    length slice = length a3 /\
    (forall j ch w, a3 !! j = Some ch -> ws !! j = Some w ->
       slice !! j = Some (scale_map w ch)) /\
    (forall j, length ws <= j -> slice !! j = a3 !! j) /\
    (forall k' i', (k', i') <> (k, i) ->
       view (activations s') k' i' = view (activations s) k' i').
Proof.
  intros Hrun k.
  apply gradcam_sample_inv in Hrun
    as (c & row & logit & g4 & a4 & g3 & a3 & ws & avg & top & name
        & Hc & _ & _ & Hg4 & Hg3 & Hws & Ha4 & Ha3 & Hlen & Havg
        & Htop & Hname & ->).
  pose proof Ha4 as Hk. rewrite last_lookup in Hk.
  replace (pred (length (activations s))) with k in Hk by (unfold k; lia).
  exists a4, a3, g4, g3, ws, (partly_weighted (length ws) a3 ws).
  cbn [after_sample activations gradients]. fold k.
  repeat (split; [assumption|]).
  split; [apply length_insert|].
  split; [eapply view_Some; eassumption|].
  split; [apply view_insert; eapply lookup_lt_Some; eassumption|].
  split; [apply length_partly_weighted; lia|].
  split; [|split].
  - intros j ch w Hch Hw. apply lookup_partly_weighted_lt; try assumption.
    eapply lookup_lt_Some; eassumption.
  - intros j Hj. apply lookup_partly_weighted_ge; lia.
  - intros k' i' Hne. now apply view_insert_other.
Qed.

(** What one sample does to the two logs. *)
Lemma sample_scales_slice (m : Model) (target : layer)
    (classes : list string) (dir : string) (x : tensor)
    (outputs : list (list Q)) (preds : list nat) (i : nat)
    (s s' : gc_state) :
  gradcam_sample m target classes dir x outputs preds i s = Ok tt s' ->
  let k := length (activations s) - 1 in
  length (activations s') = length (activations s) /\
  (exists more, gradients s' = gradients s ++ more) /\
  (exists a3 g4 g3 ws slice,
     view (activations s) k i = Some a3 /\
     g4 ∈ gradients s' /\ g4 !! i = Some g3 /\ spatial_means g3 = inr ws /\
     view (activations s') k i = Some slice /\
     length slice = length a3 /\
     forall j ch w, a3 !! j = Some ch -> ws !! j = Some w ->
       slice !! j = Some (scale_map w ch)) /\
  (forall k' i', (k', i') <> (k, i) ->
     view (activations s') k' i' = view (activations s) k' i').
Proof.
  intros Hrun k.
  apply gradcam_sample_inv in Hrun
    as (c & row & logit & g4 & a4 & g3 & a3 & ws & avg & top & name
        & Hc & _ & _ & Hg4 & Hg3 & Hws & Ha4 & Ha3 & Hlen & Havg
        & Htop & Hname & ->).
  pose proof Ha4 as Hk. rewrite last_lookup in Hk.
  replace (pred (length (activations s))) with k in Hk by (unfold k; lia).
  cbn [after_sample activations gradients]. fold k.
  split; [apply length_insert|]. split; [eauto|]. split.
  - exists a3, g4, g3, ws, (partly_weighted (length ws) a3 ws).
    split; [eapply view_Some; eassumption|].
    split; [apply list_elem_of_lookup; rewrite last_lookup in Hg4; eauto|].
    repeat (split; [assumption|]).
    split; [apply view_insert; eapply lookup_lt_Some; eassumption|].
    split; [apply length_partly_weighted; lia|].
    intros j ch w Hch Hw. apply lookup_partly_weighted_lt; try assumption.
    eapply lookup_lt_Some; eassumption.
  - intros k' i' Hne. now apply view_insert_other.
Qed.

(** Over the samples of a batch: once the first [n] samples are processed,
    each of their slices of the last entry is weighted by its own gradient
    and stays so while the later samples are processed; the slices of the
    samples still to come and the older entries of the log are as
    captured. *)
Lemma samples_scale_log (m : Model) (target : layer)
    (classes : list string) (dir : string) (x : tensor)
    (outputs : list (list Q)) (preds : list nat) (n : nat)
    (s s' : gc_state) :
  for_each (seq 0 n)
    (gradcam_sample m target classes dir x outputs preds) s = Ok tt s' ->
  let k := length (activations s) - 1 in
  length (activations s') = length (activations s) /\
  (exists more, gradients s' = gradients s ++ more) /\
  (forall i, i < n ->
     exists a3 g4 g3 ws slice,
       view (activations s) k i = Some a3 /\
       g4 ∈ gradients s' /\ g4 !! i = Some g3 /\
       spatial_means g3 = inr ws /\
       view (activations s') k i = Some slice /\
       length slice = length a3 /\
       forall j ch w, a3 !! j = Some ch -> ws !! j = Some w ->
         slice !! j = Some (scale_map w ch)) /\
  (forall k' i', k' <> k \/ n <= i' ->
     view (activations s') k' i' = view (activations s) k' i').
Proof.
  intros Hrun k. revert s' Hrun. induction n as [|n IH]; intros s' Hrun.
  - injection Hrun as <-. split; [reflexivity|].
    split; [exists []; now rewrite app_nil_r|].
    split; [intros i Hi; lia | reflexivity].
  - rewrite seq_S, for_each_app in Hrun. simpl in Hrun.
    destruct (for_each (seq 0 n) _ s) as [[] s1|e s1] eqn:Hloop;
      [|discriminate].
    destruct (IH s1 eq_refl) as (Hlen1 & [more1 Hg1] & Hdone & Hframe).
    rewrite bind_run in Hrun.
    destruct (gradcam_sample m target classes dir x outputs preds n s1)
      as [[] s2|e s2] eqn:Hsample; [|discriminate].
    injection Hrun as <-.
    apply sample_scales_slice in Hsample
      as (Hlen2 & [more2 Hg2] & Hnew & Hframe2).
    rewrite Hlen1 in Hframe2, Hnew. fold k in Hframe2, Hnew.
    split; [congruence|].
    split; [exists (more1 ++ more2); rewrite Hg2, Hg1; now rewrite app_assoc|].
    split.
    + intros i Hi. destruct (decide (i = n)) as [->|Hne].
      * destruct Hnew as (a3 & g4 & g3 & ws & slice & Hv & Hin & Hrest).
        exists a3, g4, g3, ws, slice.
        split; [rewrite <- Hv; symmetry; apply Hframe; right; lia|].
        split; [exact Hin | exact Hrest].
      * destruct (Hdone i) as (a3 & g4 & g3 & ws & slice & Hv & Hin & Hg3
                               & Hws & Hslice & Hrest); [lia|].
        exists a3, g4, g3, ws, slice.
        split; [exact Hv|].
        split; [rewrite Hg2; apply elem_of_app; now left|].
        split; [exact Hg3|]. split; [exact Hws|].
        split; [|exact Hrest].
        rewrite Hframe2 by congruence. exact Hslice.
    + intros k' i' Hor. rewrite Hframe2.
      * apply Hframe. destruct Hor; [now left | right; lia].
      * intros Heq. injection Heq as -> ->. destruct Hor; [congruence | lia].
Qed.

(** ** The noise step at multiplier 0 *)

Lemma noise_step_skipped (noise_multiplier : Q) (inputs : tensor)
    (g : generator) :
  (noise_multiplier <= 0)%Q -> noise_step noise_multiplier inputs g = (inputs, g).
Proof.
  intros Hle. unfold noise_step.
  destruct (Qlt_le_dec 0 noise_multiplier) as [Hlt|_]; [|reflexivity].
  exfalso. apply (Qlt_not_le _ _ Hlt Hle).
Qed.

Lemma perturb_skipped (noise_multiplier : Q) (inputs : tensor) (w : world) :
  (noise_multiplier <= 0)%Q -> perturb noise_multiplier inputs w = (inputs, w).
Proof.
  intros Hle. unfold perturb. rewrite noise_step_skipped by exact Hle.
  destruct w; reflexivity.
Qed.

(** C2: when the noise multiplier is 0, the noise step of both procedures
    does nothing: the guarded call returns the loaded tensor and leaves the
    generator where it was (no draw is consumed, the branch is not taken),
    so every batch of the evaluation and of the explanation passes the
    loaded tensor itself to the model. *)
Theorem zero_multiplier_skips_noise (noise_multiplier : Q) :
  (noise_multiplier == 0)%Q ->
  (forall inputs g, noise_step noise_multiplier inputs g = (inputs, g)) /\
  (forall m inputs labels all_preds all_labels w,
     eval_batch m noise_multiplier (inputs, labels) (all_preds, all_labels) w =
     match predictions (forward m (training m) inputs) with
     | inl e => Raise e (emit (Forward inputs) w)
     | inr preds =>
         Ok (all_preds ++ preds, all_labels ++ labels)
            (emit (Forward inputs) w)
     end) /\
  (forall m target classes dir inputs labels s,
     gradcam_batch m target classes dir noise_multiplier (inputs, labels) s =
     (outputs ← forward_hooked m target inputs;
      preds ← lift (predictions outputs);
      for_each (seq 0 (len inputs))
        (gradcam_sample m target classes dir inputs outputs preds)) s).
Proof.
  intros Hz. assert (Hle : (noise_multiplier <= 0)%Q) by (rewrite Hz; apply Qle_refl).
  split; [|split].
  - intros inputs g. now apply noise_step_skipped.
  - intros m inputs labels all_preds all_labels w.
    unfold eval_batch. rewrite perturb_skipped by exact Hle. reflexivity.
  - intros m target classes dir inputs labels s.
    unfold gradcam_batch. rewrite bind_run. cbn [fst].
    rewrite perturb_skipped by exact Hle.
    destruct s; reflexivity.
Qed.

(** ** The target layer *)

(** C7: the explainer takes as target the module five positions before the
    end of the model's module list and runs its loop with the hooks on it;
    when the list has fewer than five entries the procedure raises
    IndexError right after creating the output directory, before any batch
    is read. *)
Theorem target_layer_fifth_from_end (m : Model)
    (test_loader : list (tensor * list nat)) (classes : list string)
    (dir : string) (noise_multiplier : Q) (w : world) :
  (length (modules m) < 5 ->
   run_gradcam m test_loader classes dir noise_multiplier w =
   Raise IndexError (makedirs dir w)) /\
  (5 <= length (modules m) ->
   exists target,
     modules m !! (length (modules m) - 5) = Some target /\
     run_gradcam m test_loader classes dir noise_multiplier w =
     match for_each test_loader
             (gradcam_batch m target classes dir noise_multiplier)
             (Gc (makedirs dir w) [] [] 0) with
     | Ok _ s => Ok tt (env s)
     | Raise e s => Raise e (env s)
     end).
Proof.
  split.
  - intros Hshort. unfold run_gradcam. cbv zeta.
    change (-5)%Z with (- Z.of_nat 5)%Z.
    now rewrite py_index_too_short.
  - intros Hlong.
    destruct (lookup_lt_is_Some_2 (modules m) (length (modules m) - 5))
      as [target Ht]; [lia|].
    exists target. split; [exact Ht|].
    unfold run_gradcam. cbv zeta.
    change (-5)%Z with (- Z.of_nat 5)%Z.
    rewrite py_index_from_end by lia.
    now rewrite (index_Some _ _ _ Ht).
Qed.

(** ** The metrics table *)

Lemma path_exists_false (p : string) (w : world) :
  path_exists p w = false <-> files w !! p = None /\ p ∉ dirs w.
Proof.
  unfold path_exists. rewrite orb_false_iff, !bool_decide_eq_false.
  rewrite <- eq_None_not_Some. reflexivity.
Qed.

Lemma path_exists_file (p : string) (w : world) (old : list line) :
  files w !! p = Some old -> path_exists p w = true.
Proof.
  intros H. unfold path_exists. apply orb_true_iff. left.
  apply bool_decide_eq_true. eauto.
Qed.

Lemma write_metrics_new (p : string) (nm f1 pr rc : Q) (w : world) :
  path_exists p w = false ->
  files (write_metrics p nm f1 pr rc w) !! p =
  Some [metrics_header; metrics_row nm f1 pr rc].
Proof.
  intros Hne. pose proof (proj1 (path_exists_false p w) Hne) as [Hnone _].
  unfold write_metrics, to_csv. rewrite Hne, Hnone. simpl.
  apply lookup_insert_eq.
Qed.

Lemma write_metrics_append (p : string) (nm f1 pr rc : Q) (w : world)
    (old : list line) :
  files w !! p = Some old ->
  files (write_metrics p nm f1 pr rc w) !! p =
  Some (old ++ [metrics_row nm f1 pr rc]).
Proof.
  intros Hold. unfold write_metrics, to_csv.
  rewrite (path_exists_file p w old Hold), Hold. simpl.
  apply lookup_insert_eq.
Qed.




(** ** The confusion matrix *)

Lemma unique_labels_elem (y_true y_pred : list nat) (c : nat) :
  c ∈ unique_labels y_true y_pred <-> c ∈ y_true ++ y_pred.
Proof.
  unfold unique_labels. cbv zeta. rewrite list_elem_of_filter, elem_of_seq.
  split; [tauto|]. intros Hin. split; [exact Hin|].
  pose proof (max_list_elem_of_le _ _ Hin). lia.
Qed.

Lemma unique_labels_NoDup (y_true y_pred : list nat) :
  NoDup (unique_labels y_true y_pred).
Proof. apply NoDup_filter, NoDup_seq. Qed.




(** Counting the members of a duplicate-free list one by one. *)
Lemma count_member_cons {A} `{EqDecision A} (x : A) (M ps : list A) :
  x ∉ M ->
  length (filter (fun p => p ∈ x :: M) ps) =
  length (filter (fun p => p = x) ps) + length (filter (fun p => p ∈ M) ps).
Proof.
  intros Hx. induction ps as [|p ps IH]; [reflexivity|].
  rewrite !filter_cons.
  destruct (decide (p = x)) as [->|Hne].
  - rewrite decide_True by (now left).
    rewrite decide_False by exact Hx. simpl. now rewrite IH.
  - destruct (decide (p ∈ M)) as [HM|HM].
    + rewrite decide_True by (now right). simpl. rewrite IH. lia.
    + rewrite decide_False; [exact IH|].
      intros Hin. apply elem_of_cons in Hin as [?|?]; contradiction.
Qed.

Lemma sum_counts {A} `{EqDecision A} (M ps : list A) :
  NoDup M ->
  sum_list (map (fun x => length (filter (fun p => p = x) ps)) M) =
  length (filter (fun p => p ∈ M) ps).
Proof.
  induction 1 as [|x M Hx HM IH]; simpl.
  - induction ps as [|p ps IHp]; [reflexivity|].
    rewrite filter_cons, decide_False; [exact IHp|]. apply not_elem_of_nil.
  - rewrite IH. symmetry. now apply count_member_cons.
Qed.

Lemma filter_length_ext {A} (P R : A -> Prop)
    `{!forall x, Decision (P x)} `{!forall x, Decision (R x)} (l : list A) :
  (forall x, x ∈ l -> P x <-> R x) ->
  length (filter P l) = length (filter R l).
Proof.
  induction l as [|x l IH]; intros Hext; [reflexivity|].
  rewrite !filter_cons.
  assert (Hx : P x <-> R x) by (apply Hext; now left).
  assert (Hl : length (filter P l) = length (filter R l)).
  { apply IH. intros y Hy. apply Hext. now right. }
  destruct (decide (P x)), (decide (R x)); simpl; tauto || lia.
Qed.

Lemma count_fst_zip (a : nat) (y_true y_pred : list nat) :
  length y_true = length y_pred ->
  length (filter (fun p => p.1 = a) (zip y_true y_pred)) =
  count_class a y_true.
Proof.
  unfold count_class. revert y_pred.
  induction y_true as [|t y_true IH]; intros [|q y_pred] Hlen;
    simpl in *; try discriminate; [reflexivity|].
  rewrite !filter_cons. simpl.
  destruct (decide (t = a)); simpl; rewrite IH by lia; reflexivity.
Qed.


Lemma zip_labels (y_true y_pred : list nat) (p : nat * nat) :
  p ∈ zip y_true y_pred ->
  p.1 ∈ unique_labels y_true y_pred /\ p.2 ∈ unique_labels y_true y_pred.
Proof.
  destruct p as [t q]. intros Hin. rewrite !unique_labels_elem, !elem_of_app.
  split; [left; eapply elem_of_zip_l | right; eapply elem_of_zip_r];
    exact Hin.
Qed.

#[local] Instance pair_left_inj (a : nat) : Inj (=) (=) (pair a : nat -> nat * nat).
Proof. intros x y H. now injection H. Qed.

#[local] Instance pair_right_inj (b : nat) :
  Inj (=) (=) (fun a : nat => (a, b)).
Proof. intros x y H. now injection H. Qed.

#[local] Instance pair_diag_inj : Inj (=) (=) (fun a : nat => (a, a)).
Proof. intros x y H. now injection H. Qed.

(** Row, column and diagonal of the table of counts over the labels. *)
Lemma row_counts (a : nat) (y_true y_pred : list nat) :
  length y_true = length y_pred ->
  sum_list (map (fun b => count_pairs a b y_true y_pred)
              (unique_labels y_true y_pred)) =
  count_class a y_true.
Proof.
  intros Hlen. unfold count_pairs.
  rewrite <- (count_fst_zip a y_true y_pred Hlen).
  pose proof (sum_counts (map (pair a) (unique_labels y_true y_pred))
                (zip y_true y_pred)) as Hsum.
  rewrite map_map in Hsum. rewrite Hsum
    by (apply (NoDup_fmap_2 (pair a)), unique_labels_NoDup).
  apply filter_length_ext. intros [t q] Hin.
  apply zip_labels in Hin as [_ Hq]. simpl in *.
  rewrite (list_elem_of_fmap (pair a)). split.
  - intros (b & Heq & _). now injection Heq.
  - intros ->. exists q. split; [reflexivity | exact Hq].
Qed.



#[local] Instance lt_antisym : AntiSymm (=) lt.
Proof. intros x y H1 H2. lia. Qed.


Lemma confusion_matrix_rows (y_true y_pred : list nat)
    (cm : list (list nat)) :
  confusion_matrix y_true y_pred = inr cm ->
  length y_true = length y_pred /\
  cm = map (fun a => map (fun b => count_pairs a b y_true y_pred)
                       (unique_labels y_true y_pred))
         (unique_labels y_true y_pred).
Proof.
  unfold confusion_matrix.
  destruct (decide (length y_true = length y_pred)); [|discriminate].
  intros H. injection H as <-. split; [assumption | reflexivity].
Qed.


(** ** One image per sample *)

Lemma image_paths_app (dir : string) (start : nat) (n1 n2 : list string) :
  image_paths dir start (n1 ++ n2) =
  image_paths dir start n1 ++ image_paths dir (start + length n1) n2.
Proof.
  unfold image_paths. rewrite imap_app. f_equal.
  apply imap_ext. intros j name _. simpl. do 2 f_equal. lia.
Qed.

Lemma explains_refl (dir : string) (s : gc_state) : explains dir s s [] [].
Proof.
  exists []. rewrite app_nil_r. simpl. repeat split; try reflexivity. lia.
Qed.

Lemma explains_trans (dir : string) (s1 s2 s3 : gc_state)
    (xs xs' : list tensor) (ns ns' : list string) :
  explains dir s1 s2 xs ns -> explains dir s2 s3 xs' ns' ->
  explains dir s1 s3 (xs ++ xs') (ns ++ ns').
Proof.
  intros (t1 & Ht1 & Hf1 & Hw1 & Hi1 & Hd1) (t2 & Ht2 & Hf2 & Hw2 & Hi2 & Hd2).
  exists (t1 ++ t2). repeat split.
  - rewrite Ht2, Ht1. now rewrite app_assoc.
  - rewrite forwarded_app. congruence.
  - rewrite written_app, map_app, Hw1, Hw2, image_paths_app.
    now rewrite Hi1.
  - rewrite Hi2, Hi1, length_app. lia.
  - congruence.
Qed.

Lemma sample_explains (m : Model) (target : layer) (classes : list string)
    (dir : string) (x : tensor) (outputs : list (list Q)) (preds : list nat)
    (i : nat) (s s' : gc_state) :
  gradcam_sample m target classes dir x outputs preds i s = Ok tt s' ->
  exists c name,
    preds !! i = Some c /\ classes !! c = Some name /\
    explains dir s s' [] [name].
Proof.
  intros Hrun.
  apply gradcam_sample_inv in Hrun
    as (c & row & logit & g4 & a4 & g3 & a3 & ws & avg & top & name
        & Hc & _ & _ & _ & _ & _ & _ & _ & _ & _ & _ & Hname & ->).
  exists c, name. split; [exact Hc|]. split; [exact Hname|].
  eexists. split; [apply trace_after_sample|].
  repeat split.
  - simpl. unfold image_paths. simpl. now rewrite Nat.add_0_r.
Qed.

Lemma samples_explain (m : Model) (target : layer) (classes : list string)
    (dir : string) (x : tensor) (outputs : list (list Q)) (preds : list nat)
    (n : nat) (s s' : gc_state) :
  for_each (seq 0 n)
    (gradcam_sample m target classes dir x outputs preds) s = Ok tt s' ->
  exists names,
    length names = n /\ n <= length preds /\
    class_names classes (take n preds) names /\
    explains dir s s' [] names.
Proof.
  revert s'. induction n as [|n IH]; intros s' Hrun.
  - injection Hrun as <-. exists []. repeat split; try lia.
    + rewrite take_0. constructor.
    + apply explains_refl.
  - rewrite seq_S, for_each_app in Hrun. simpl in Hrun.
    destruct (for_each (seq 0 n) _ s) as [[] s1|e s1] eqn:Hloop;
      [|discriminate].
    destruct (IH s1 eq_refl) as (names & Hlen & Hle & Hnames & Hex).
    rewrite bind_run in Hrun.
    destruct (gradcam_sample m target classes dir x outputs preds n s1)
      as [[] s2|e s2] eqn:Hsample; [|discriminate].
    injection Hrun as <-.
    apply sample_explains in Hsample as (c & name & Hc & Hname & Hex').
    exists (names ++ [name]). repeat split.
    + rewrite length_app. simpl. lia.
    + apply lookup_lt_Some in Hc. lia.
    + rewrite (take_S_r _ _ _ Hc). apply Forall2_app; [exact Hnames|].
      constructor; [exact Hname | constructor].
    + change (@nil tensor) with (@nil tensor ++ @nil tensor).
      eapply explains_trans; eassumption.
Qed.

Lemma batch_explains (m : Model) (target : layer) (classes : list string)
    (dir : string) (noise_multiplier : Q) (batch : tensor * list nat)
    (s s' : gc_state) :
  gradcam_batch m target classes dir noise_multiplier batch s = Ok tt s' ->
  exists x preds names,
    x = (perturb noise_multiplier batch.1 (env s)).1 /\
    predictions (forward m false x) = inr preds /\
    length names = len x /\ len x <= length preds /\
    class_names classes (take (len x) preds) names /\
    explains dir s s' [x] names.
Proof.
  intros Hrun. unfold gradcam_batch in Hrun. rewrite bind_run in Hrun.
  destruct (perturb noise_multiplier batch.1 (env s)) as [x w1] eqn:Hp.
  rewrite bind_run in Hrun. unfold forward_hooked at 1 in Hrun.
  cbn [call_model env on_env gradients activations sample_idx] in Hrun.
  rewrite bind_run in Hrun.
  destruct (predictions (forward m false x)) as [e|preds] eqn:Hpreds;
    [discriminate|].
  rewrite lift_inr in Hrun.
  apply samples_explain in Hrun as (names & Hlen & Hle & Hnames & Hex).
  exists x, preds, names. repeat split; try assumption.
  destruct Hex as (tr & Htr & Hf & Hw & Hi & Hd).
  cbn [env sample_idx] in Htr, Hw, Hi, Hd.
  assert (Hw1 : trace w1 = trace (env s) /\ dirs w1 = dirs (env s)).
  { unfold perturb in Hp.
    destruct (noise_step noise_multiplier batch.1 (gen (env s))).
    injection Hp as _ <-. split; reflexivity. }
  destruct Hw1 as [Htw Hdw].
  exists (Forward x :: tr). repeat split.
  - rewrite Htr. cbn [emit trace]. rewrite Htw, <- app_assoc. reflexivity.
  - simpl. now rewrite Hf.
  - exact Hw.
  - exact Hi.
  - rewrite Hd. cbn [emit dirs]. exact Hdw.
Qed.


(** ** File names are distinct *)

Lemma digits_nil : digits EmptyString.
Proof. intros rest. reflexivity. Qed.

Lemma digits_cons (c : Ascii.ascii) (s : string) :
  is_digit c = true -> digits s -> digits (String c s).
Proof. intros Hc Hs rest. simpl. now rewrite Hc, Hs. Qed.

Lemma pretty_N_char_digit (x : N) : is_digit (pretty_N_char x) = true.
Proof.
  unfold pretty_N_char.
  repeat (match goal with
          | |- context [match ?y with _ => _ end] => destruct y
          end; try reflexivity).
Qed.

Lemma pretty_N_go_digits (x : N) (s : string) :
  digits s -> digits (pretty_N_go x s).
Proof.
  revert s. induction x as [x IH] using (well_founded_induction N.lt_wf_0).
  intros s Hs. destruct (decide (0 < x)%N) as [Hpos|Hzero].
  - rewrite pretty_N_go_step by exact Hpos. apply IH.
    + now apply N.div_lt.
    + apply digits_cons; [apply pretty_N_char_digit | exact Hs].
  - replace x with 0%N by lia. now rewrite pretty_N_go_0.
Qed.

Lemma pretty_nat_digits (n : nat) : digits (pretty n).
Proof.
  unfold pretty, pretty_nat, pretty, pretty_N.
  destruct (decide (N.of_nat n = 0%N)).
  - apply digits_cons; [reflexivity | apply digits_nil].
  - apply pretty_N_go_digits, digits_nil.
Qed.

Lemma string_app_inv_head (a s t : string) : a +:+ s = a +:+ t -> s = t.
Proof.
  induction a as [|c a IH]; simpl; intros H; [exact H|].
  injection H as H. now apply IH.
Qed.

Lemma gradcam_filename_index (k k' : nat) (name name' : string) :
  gradcam_filename k name = gradcam_filename k' name' -> k = k'.
Proof.
  unfold gradcam_filename. intros H.
  apply string_app_inv_head in H.
  apply (f_equal leading_digits) in H.
  change ("_class_" +:+ name +:+ ".png")
    with (String underscore ("class_" +:+ name +:+ ".png")) in H.
  change ("_class_" +:+ name' +:+ ".png")
    with (String underscore ("class_" +:+ name' +:+ ".png")) in H.
  rewrite !pretty_nat_digits in H.
  now apply (inj pretty) in H.
Qed.

Lemma path_join_filename (dir : string) (k : nat) (name : string) :
  path_join dir (gradcam_filename k name) =
  if String.eqb dir EmptyString || ends_with_sep dir
  then dir +:+ gradcam_filename k name
  else dir +:+ "/" +:+ gradcam_filename k name.
Proof. reflexivity. Qed.

Lemma path_join_filename_inj (dir : string) (k k' : nat)
    (name name' : string) :
  path_join dir (gradcam_filename k name) =
  path_join dir (gradcam_filename k' name') -> k = k'.
Proof.
  rewrite !path_join_filename.
  destruct (String.eqb dir EmptyString || ends_with_sep dir); intros H;
    apply string_app_inv_head in H.
  - eapply gradcam_filename_index; eassumption.
  - apply (string_app_inv_head "/") in H.
    eapply gradcam_filename_index; eassumption.
Qed.

Lemma image_paths_NoDup (dir : string) (start : nat) (names : list string) :
  NoDup (image_paths dir start names).
Proof.
  apply NoDup_alt. intros i j p Hi Hj. unfold image_paths in *.
  rewrite list_lookup_imap in Hi, Hj.
  destruct (names !! i) as [ni|]; [|discriminate].
  destruct (names !! j) as [nj|]; [|discriminate].
  simpl in Hi, Hj. injection Hi as <-. injection Hj as Hj.
  apply path_join_filename_inj in Hj. lia.
Qed.

(** ** The directory comes first *)



Lemma extends_emit (e : event) (s : gc_state) : extends s (on_env (emit e) s).
Proof. split; [reflexivity|]. now exists [e]. Qed.






(** * The properties on the small model *)

Import Example.

Lemma sample0_returns : sample0 = Ok tt (final sample0).
Proof. vm_compute. reflexivity. Qed.




Lemma zero_multiplier_skips_noise_witness :
  noise_step 0 x0 g0 = (x0, g0) /\
  forwarded (trace (final run0)) = [x0] /\
  gen (final run0) = g0.
Proof.
  split; [|split; vm_compute; reflexivity].
  exact (proj1 (zero_multiplier_skips_noise 0 (Qeq_refl 0)) x0 g0).
Defined.

Lemma heatmap_in_unit_range_witness :
  sample0 = Ok tt (final sample0) /\
  exists p h,
    written (trace (env (final sample0))) = [(p, Heatmap_jet h)] /\
    Forall (Forall in_unit) h.
Proof.
  split; [exact sample0_returns|].
  destruct (heatmap_in_unit_range m0 11 classes0 dir0 x0 out0 [0] 0 s0
              (final sample0) sample0_returns)
    as (a4 & a3 & ws & avg & top & p & _ & _ & _ & _ & _ & Hw & Hin & _).
  exists p, (divide (relu avg) (top + eps)%Q). split; [exact Hw | exact Hin].
Defined.

Lemma weighting_mutates_log_witness :
  sample0 = Ok tt (final sample0) /\
  activations s0 = [[ [[[1; 2]]; [[1; 0]]] ]]%Q /\
  Forall2 (Forall2 (Forall2 (Forall2 (Forall2 Qeq))))
    (activations (final sample0)) [[ [[[1; 2]]; [[2; 0]]] ]]%Q /\
  exists slice,
    view (activations (final sample0)) 0 0 = Some slice /\
    length slice = 2.
Proof.
  split; [exact sample0_returns|]. split; [reflexivity|].
  split; [vm_compute; repeat constructor|].
  destruct (weighting_mutates_log m0 11 classes0 dir0 x0 out0 [0] 0 s0
              (final sample0) sample0_returns)
    as (a4 & a3 & g4 & g3 & ws & slice & Ha4 & Ha3 & _ & _ & _ & _ & _
        & Hview & Hlen & _).
  exists slice. split; [exact Hview|].
  rewrite Hlen. injection Ha4 as <-. injection Ha3 as <-. reflexivity.
Defined.




Lemma target_layer_fifth_from_end_witness :
  run_gradcam short_model loader0 classes0 dir0 0 w0 =
    Raise IndexError (makedirs dir0 w0) /\
  exists target,
    modules m0 !! 1 = Some target /\ target = 11 /\
    forwarded (trace (final run0)) = [x0].
Proof.
  split.
  - apply (proj1 (target_layer_fifth_from_end short_model loader0 classes0
                    dir0 0 w0)).
    simpl. lia.
  - destruct (proj2 (target_layer_fifth_from_end m0 loader0 classes0
                       dir0 0 w0)) as (target & Ht & _).
    + simpl. lia.
    + exists target. split; [exact Ht|].
      split; [|vm_compute; reflexivity].
      simpl in Ht. now injection Ht as <-.
Defined.


Lemma add_gaussian_noise_zero_is_clamp_witness :
  Forall2 Qeq (data (add_gaussian_noise x0 0 (1 # 10) 0 g0).1) [0; 1 # 2]%Q /\
  ~ Forall2 Qeq (data (add_gaussian_noise x0 0 (1 # 10) 0 g0).1) (data x0) /\
  noise_step 0 x0 g0 = (x0, g0).
Proof.
  pose proof (add_gaussian_noise_zero_is_clamp x0 (1 # 10) g0)
    as (_ & Hclamp & _ & Hchanged & _ & Hskip).
  split; [|split; [|exact Hskip]].
  - vm_compute. repeat constructor.
  - apply Hchanged. left. unfold in_unit. intros [H _].
    vm_compute in H. now apply H.
Defined.

(** ** The table within a whole evaluation run *)

Lemma stable_eval_batches (m : Model) (noise_multiplier : Q)
    (loader : list (tensor * list nat)) (acc : list nat * list nat) :
  stable same_files (eval_batches m noise_multiplier loader acc).
Proof.
  revert acc. induction loader as [|batch loader IH]; intros acc; simpl.
  - intros w. split; reflexivity.
  - apply stable_bind.
    + intros w1 w2 w3 [Hf1 Hd1] [Hf2 Hd2]. split; congruence.
    + intros w. unfold eval_batch. destruct batch as [inputs labels].
      destruct acc as [all_preds all_labels]. unfold perturb.
      destruct (noise_step noise_multiplier inputs (gen w)) as [x g].
      unfold call_model.
      destruct (predictions (forward m (training m) x)); split; reflexivity.
    + exact IH.
Qed.

Lemma run_inferece_table (m : Model) (scores : scorer)
    (test_loader : list (tensor * list nat)) (classes : list string)
    (confusion_matrix_path metrics_path : string) (noise_multiplier : Q)
    (w w' : world) :
  confusion_matrix_path <> metrics_path ->
  run_inferece m scores test_loader classes confusion_matrix_path
    metrics_path noise_multiplier w = Ok tt w' ->
  exists f1 precision recall,
    (path_exists metrics_path w = false ->
     files w' !! metrics_path =
     Some [metrics_header;
           metrics_row noise_multiplier f1 precision recall]) /\
    (forall old, files w !! metrics_path = Some old ->
     files w' !! metrics_path =
     Some (old ++ [metrics_row noise_multiplier f1 precision recall])).
Proof.
  intros Hne Hrun. unfold run_inferece in Hrun. rewrite bind_run in Hrun.
  pose proof (stable_eval_batches m noise_multiplier test_loader ([], []) w)
    as [Hf Hd].
  destruct (eval_batches m noise_multiplier test_loader ([], []) w)
    as [[all_preds all_labels] w1|e w1]; [|discriminate].
  simpl in Hf, Hd. rewrite bind_run in Hrun.
  destruct (classification_report all_labels all_preds classes)
    as [e|[]]; [discriminate|].
  rewrite lift_inr, bind_run in Hrun.
  destruct (confusion_matrix all_labels all_preds) as [e|cm]; [discriminate|].
  rewrite lift_inr in Hrun.
  destruct (scores all_labels all_preds) as [[f1 precision] recall].
  rewrite bind_run in Hrun. unfold update at 1 in Hrun.
  unfold update in Hrun. injection Hrun as <-.
  exists f1, precision, recall.
  assert (Hsave : forall w2 img,
            files (savefig confusion_matrix_path img w2) !! metrics_path =
            files w2 !! metrics_path).
  { intros w2 img. simpl. now apply lookup_insert_ne. }
  split.
  - intros Hnew. rewrite Hsave. apply write_metrics_new.
    unfold path_exists in *. now rewrite Hf, Hd.
  - intros old Hold. rewrite Hsave. apply write_metrics_append.
    now rewrite Hf.
Qed.

Lemma run_inferece_table_example :
  let r := run_inferece m0 (fun _ _ => (1, 1, 1)%Q) loader0 ["cat"]
             "out/cnn_confusion_matrix.png" csv0 0 w0 in
  r = Ok tt (final r) /\
  files (final r) !! csv0 = Some [metrics_header; metrics_row 0 1 1 1] /\
  forwarded (trace (final r)) = [x0].
Proof. cbv zeta. repeat split; vm_compute; reflexivity. Qed.

(** * Further properties of the code *)

(** ** Predictions *)

Lemma traverse_Forall2 {A B} (f : A -> exn + B) (l : list A) (ys : list B) :
  traverse f l = inr ys -> Forall2 (fun x y => f x = inr y) l ys.
Proof.
  revert ys. induction l as [|x l IH]; intros ys H; simpl in H.
  - injection H as <-. constructor.
  - destruct (f x) as [e|y] eqn:Hx; [discriminate|].
    destruct (traverse f l) as [e|ys']; [discriminate|].
    injection H as <-. constructor; [exact Hx | now apply IH].
Qed.

Lemma traverse_inl {A B} (f : A -> exn + B) (l : list A) (e : exn) :
  traverse f l = inl e -> exists x, x ∈ l /\ f x = inl e.
Proof.
  induction l as [|x l IH]; intros H; simpl in H; [discriminate|].
  destruct (f x) as [e'|y] eqn:Hx.
  - injection H as ->. exists x. split; [now left | exact Hx].
  - destruct (traverse f l) as [e'|ys']; [|discriminate].
    injection H as ->. destruct (IH eq_refl) as (x' & Hin & Hx').
    exists x'. split; [now right | exact Hx'].
Qed.

Lemma argmax_from_first_maximum (seen rest : list Q) (best : Q) (bi : nat) :
  seen !! bi = Some best ->
  Forall (fun u => (u <= best)%Q) seen ->
  (forall j u, j < bi -> seen !! j = Some u -> (u < best)%Q) ->
  first_maximum (seen ++ rest) (argmax_from best bi (length seen) rest).
Proof.
  revert seen best bi. induction rest as [|x rest IH];
    intros seen best bi Hbi Hmax Hfirst; simpl.
  - rewrite app_nil_r. exists best. auto.
  - replace (seen ++ x :: rest) with ((seen ++ [x]) ++ rest)
      by (now rewrite <- app_assoc).
    replace (S (length seen)) with (length (seen ++ [x]))
      by (rewrite length_app; simpl; lia).
    destruct (Qlt_le_dec best x) as [Hlt|Hle].
    + replace (length seen) with (length seen + 0) at 1 by lia.
      rewrite length_app. simpl.
      replace (length seen + 1) with (length (seen ++ [x]))
        by (rewrite length_app; simpl; lia).
      apply IH.
      * rewrite lookup_app_r by lia.
        now replace (length seen + 0 - length seen) with 0 by lia.
      * apply Forall_app. split; [|repeat constructor; apply Qle_refl].
        eapply List.Forall_impl; [|exact Hmax].
        intros u Hu. simpl in Hu. apply Qlt_le_weak.
        eapply Qle_lt_trans; eassumption.
      * intros j u Hj Hu.
        rewrite lookup_app_l in Hu by lia.
        eapply Qle_lt_trans; [|exact Hlt].
        apply list_elem_of_lookup_2, list_elem_of_In in Hu.
        exact (proj1 (List.Forall_forall _ _) Hmax u Hu).
    + apply IH.
      * apply lookup_app_l_Some. exact Hbi.
      * apply Forall_app. split; [exact Hmax | now repeat constructor].
      * intros j u Hj Hu. apply (Hfirst j u Hj).
        rewrite lookup_app_l in Hu; [exact Hu|].
        apply lookup_lt_Some in Hbi. lia.
Qed.

Lemma argmax_first_maximum (row : list Q) (c : nat) :
  argmax row = inr c -> first_maximum row c.
Proof.
  destruct row as [|x rest]; [discriminate|]. simpl.
  intros H. injection H as <-.
  apply (argmax_from_first_maximum [x] rest x 0).
  - reflexivity.
  - repeat constructor. apply Qle_refl.
  - intros j u Hj. lia.
Qed.

(** X1: the predictions of a batch hold, for every row of logits, the
    first index at which the row is largest (so it is a valid column and
    the look-up of the class score cannot fail); the only failure is an
    IndexError, raised when some row has no entry. *)
Theorem predictions_first_maximum (outputs : list (list Q)) :
  (forall preds, predictions outputs = inr preds ->
     Forall2 first_maximum outputs preds) /\
  (forall e, predictions outputs = inl e ->
     e = IndexError /\ [] ∈ outputs) /\
  (Forall (fun row => row <> []) outputs ->
     exists preds, predictions outputs = inr preds).
Proof.
  split; [|split].
  - intros preds Hp. apply traverse_Forall2 in Hp.
    eapply Forall2_impl; [exact Hp|]. intros row c.
    apply argmax_first_maximum.
  - intros e He. apply traverse_inl in He as (row & Hin & Hrow).
    destruct row as [|x rest]; [|discriminate].
    injection Hrow as <-. split; [reflexivity | exact Hin].
  - intros Hne. destruct (predictions outputs) as [e|preds] eqn:Hp;
      [|now exists preds].
    apply traverse_inl in Hp as (row & Hin & Hrow).
    destruct row as [|x rest]; [|discriminate].
    exfalso. apply list_elem_of_In in Hin.
    exact (proj1 (List.Forall_forall _ _) Hne [] Hin eq_refl).
Qed.

(** ** The evaluation run *)

Lemma noise_step_shape (noise_multiplier : Q) (t : tensor) (g : generator) :
  shape (noise_step noise_multiplier t g).1 = shape t.
Proof.
  unfold noise_step. destruct (Qlt_le_dec 0 noise_multiplier); reflexivity.
Qed.

Lemma perturb_shape (noise_multiplier : Q) (t : tensor) (w : world) :
  shape (perturb noise_multiplier t w).1 = shape t.
Proof.
  unfold perturb.
  pose proof (noise_step_shape noise_multiplier t (gen w)) as H.
  destruct (noise_step noise_multiplier t (gen w)). exact H.
Qed.





(** What a returning evaluation loop has collected. *)
Lemma eval_batches_collect (m : Model) (noise_multiplier : Q)
    (loader : list (tensor * list nat)) (all_preds all_labels : list nat)
    (all_preds' all_labels' : list nat) (w w' : world) :
  eval_batches m noise_multiplier loader (all_preds, all_labels) w =
    Ok (all_preds', all_labels') w' ->
  all_labels' = all_labels ++ concat (map snd loader) /\
  exists xs pss,
    trace w' = trace w ++ map Forward xs /\
    Forall2 (fun b x => shape x = shape b.1) loader xs /\
    Forall2 (fun x ps => predictions (forward m (training m) x) = inr ps)
      xs pss /\
    all_preds' = all_preds ++ concat pss.
Proof.
  revert all_preds all_labels w.
  induction loader as [|[inputs labels] loader IH];
    intros all_preds all_labels w Hrun; simpl in Hrun.
  - injection Hrun as <- <- <-. simpl. rewrite app_nil_r. split; [reflexivity|].
    exists [], []. simpl. rewrite !app_nil_r. repeat split; constructor.
  - rewrite bind_run in Hrun. unfold eval_batch at 1 in Hrun.
    pose proof (perturb_shape noise_multiplier inputs w) as Hshape.
    destruct (perturb noise_multiplier inputs w) as [x w1] eqn:Hp.
    assert (Htr : trace w1 = trace w).
    { unfold perturb in Hp.
      destruct (noise_step noise_multiplier inputs (gen w)).
      now injection Hp as _ <-. }
    unfold call_model in Hrun.
    destruct (predictions (forward m (training m) x)) as [e|ps] eqn:Hps;
      [discriminate|].
    apply IH in Hrun as (Hl & xs & pss & Ht & Hsh & Hpr & Hap).
    split; [rewrite Hl; simpl; now rewrite <- app_assoc|].
    exists (x :: xs), (ps :: pss). repeat split.
    + rewrite Ht. cbn [emit trace]. rewrite Htr, <- app_assoc. reflexivity.
    + constructor; [exact Hshape | exact Hsh].
    + constructor; [exact Hps | exact Hpr].
    + rewrite Hap. simpl. now rewrite <- app_assoc.
Qed.

Lemma run_inferece_inv (m : Model) (scores : scorer)
    (test_loader : list (tensor * list nat)) (classes : list string)
    (cm_path metrics_path : string) (noise_multiplier : Q) (w w' : world) :
  run_inferece m scores test_loader classes cm_path metrics_path
    noise_multiplier w = Ok tt w' ->
  exists all_preds all_labels w1 cm,
    eval_batches m noise_multiplier test_loader ([], []) w =
      Ok (all_preds, all_labels) w1 /\
    classification_report all_labels all_preds classes = inr tt /\
    confusion_matrix all_labels all_preds = inr cm /\
    w' = savefig cm_path (Confusion_plot cm classes noise_multiplier)
           (write_metrics metrics_path noise_multiplier
              (scores all_labels all_preds).1.1
              (scores all_labels all_preds).1.2
              (scores all_labels all_preds).2 w1).
Proof.
  intros Hrun. unfold run_inferece in Hrun. rewrite bind_run in Hrun.
  destruct (eval_batches m noise_multiplier test_loader ([], []) w)
    as [[all_preds all_labels] w1|e w1]; [|discriminate].
  rewrite bind_run in Hrun.
  destruct (classification_report all_labels all_preds classes)
    as [e|[]] eqn:Hreport; [discriminate|].
  rewrite lift_inr, bind_run in Hrun.
  destruct (confusion_matrix all_labels all_preds) as [e|cm] eqn:Hcm;
    [discriminate|].
  rewrite lift_inr in Hrun.
  exists all_preds, all_labels, w1, cm.
  destruct (scores all_labels all_preds) as [[f1 precision] recall].
  rewrite bind_run in Hrun. unfold update in Hrun. injection Hrun as <-.
  repeat split; assumption || reflexivity.
Qed.




Lemma count_all_members {A} `{EqDecision A} (M ps : list A) :
  (forall p, p ∈ ps -> p ∈ M) ->
  length (filter (fun p => p ∈ M) ps) = length ps.
Proof.
  intros Hall. induction ps as [|p ps IH]; [reflexivity|].
  rewrite filter_cons, decide_True by (apply Hall; now left).
  simpl. f_equal. apply IH. intros q Hq. apply Hall. now right.
Qed.

Lemma confusion_matrix_total (y_true y_pred : list nat)
    (cm : list (list nat)) :
  confusion_matrix y_true y_pred = inr cm ->
  sum_list (map sum_list cm) = length y_true /\
  Forall (fun row => length row = length cm) cm.
Proof.
  intros Hcm. apply confusion_matrix_rows in Hcm as [Hlen ->].
  split.
  - rewrite map_map.
    erewrite map_ext; [|intros a; apply (row_counts a _ _ Hlen)].
    unfold count_class.
    rewrite (sum_counts (unique_labels y_true y_pred) y_true
               (unique_labels_NoDup _ _)).
    apply count_all_members. intros c Hc.
    apply unique_labels_elem, elem_of_app. now left.
  - apply List.Forall_forall. intros row Hrow.
    apply in_map_iff in Hrow as (a & <- & _). now rewrite !length_map.
Qed.



(** X4: the matrix that a returning evaluation run plots is the confusion
    matrix of the loader's labels, in loader order, against the
    predictions for the tensors fed to the model; it is square with one
    row per class name, and its entries add up to the number of samples. *)
Theorem run_inferece_matrix (m : Model) (scores : scorer)
    (test_loader : list (tensor * list nat)) (classes : list string)
    (cm_path metrics_path : string) (noise_multiplier : Q) (w w' : world) :
  run_inferece m scores test_loader classes cm_path metrics_path
    noise_multiplier w = Ok tt w' ->
  exists xs pss cm,
    forwarded (trace w') = forwarded (trace w) ++ xs /\
    Forall2 (fun b x => shape x = shape b.1) test_loader xs /\
    Forall2 (fun x ps => predictions (forward m (training m) x) = inr ps)
      xs pss /\
    confusion_matrix (concat (map snd test_loader)) (concat pss) = inr cm /\
    files w' !! cm_path =
      Some [Raster (Confusion_plot cm classes noise_multiplier)] /\
    length cm = length classes /\
    Forall (fun row => length row = length classes) cm /\
    sum_list (map sum_list cm) = length (concat (map snd test_loader)).
Proof.
  intros Hrun.
  apply run_inferece_inv in Hrun
    as (ap & al & w1 & cm & Hloop & Hreport & Hcm & ->).
  apply eval_batches_collect in Hloop as (Hal & xs & pss & Ht & Hsh & Hpr & Hap).
  simpl in Hal, Hap. subst al ap.
  exists xs, pss, cm.
  pose proof (confusion_matrix_total _ _ _ Hcm) as [Htotal Hsquare].
  assert (Hn : length cm = length classes).
  { unfold classification_report in Hreport.
    destruct (decide (length (concat (map snd test_loader))
                      = length (concat pss))); [|discriminate].
    destruct (decide (length (unique_labels (concat (map snd test_loader))
                                (concat pss)) = length classes)) as [Hn|];
      [|discriminate].
    apply confusion_matrix_rows in Hcm as [_ ->]. now rewrite length_map. }
  split.
  { cbn [savefig write_metrics to_csv emit set_files trace].
    rewrite Ht, <- !app_assoc, !forwarded_app. simpl.
    rewrite app_nil_r. f_equal.
    clear. induction xs as [|x xs IH]; simpl; [reflexivity | now rewrite IH]. }
  repeat (split; [assumption|]).
  split; [simpl; apply lookup_insert_eq|].
  split; [exact Hn|]. split; [now rewrite <- Hn | exact Htotal].
Qed.


(** ** Failing samples and failing runs of the explainer *)

Lemma stable_raise_stable {S A} (R : S -> S -> Prop) (c : M S A) :
  stable R c -> raise_stable R c.
Proof. intros Hc s e s' Hrun. specialize (Hc s). now rewrite Hrun in Hc. Qed.

Lemma raise_stable_bind {S A B} (R : S -> S -> Prop) (c : M S A)
    (f : A -> M S B) :
  (forall s1 s2 s3, R s1 s2 -> R s2 s3 -> R s1 s3) ->
  stable R c -> (forall a, raise_stable R (f a)) ->
  raise_stable R (c ≫= f).
Proof.
  intros Ht Hc Hf s e s' Hrun. rewrite bind_run in Hrun.
  specialize (Hc s). destruct (c s) as [a s1|e1 s1]; simpl in Hc.
  - eapply Ht; [exact Hc | eapply Hf; exact Hrun].
  - now injection Hrun as <- <-.
Qed.

Lemma unwritten_refl (dir : string) (s : gc_state) : unwritten dir s s.
Proof. apply explains_refl. Qed.

Lemma unwritten_trans (dir : string) (s1 s2 s3 : gc_state) :
  unwritten dir s1 s2 -> unwritten dir s2 s3 -> unwritten dir s1 s3.
Proof. intros H1 H2. exact (explains_trans dir s1 s2 s3 [] [] [] [] H1 H2). Qed.

Lemma unwritten_same_world (dir : string) (s s' : gc_state) :
  env s' = env s -> sample_idx s' = sample_idx s -> unwritten dir s s'.
Proof.
  intros He Hi. exists []. rewrite He, app_nil_r, Hi. simpl.
  repeat split; try reflexivity. lia.
Qed.

Lemma gradcam_sample_raise_unwritten (m : Model) (target : layer)
    (classes : list string) (dir : string) (x : tensor)
    (outputs : list (list Q)) (preds : list nat) (i : nat) :
  raise_stable (unwritten dir)
    (gradcam_sample m target classes dir x outputs preds i).
Proof.
  pose proof (unwritten_refl dir) as Hr.
  pose proof (unwritten_trans dir) as Ht.
  unfold gradcam_sample.
  let rec chain n :=
    lazymatch n with
    | 0 => idtac
    | S ?k =>
        apply raise_stable_bind;
        [ assumption
        | first [ apply stable_lift; assumption
                | apply stable_get; assumption
                | idtac ]
        | intros ?; chain k ]
    end in
  chain 16.
  - intros s. eexists. split; [simpl; reflexivity|]. simpl.
    repeat split; try reflexivity. lia.
  - apply stable_for_each; [assumption..|]. intros j.
    unfold weighting_round.
    apply stable_bind; [assumption | now apply stable_lift |].
    intros wj s. unfold scale_channel.
    match goal with |- context [view ?l ?k i] => destruct (view l k i) as [t|] end;
      [|apply Hr].
    destruct (t !! j); [|apply Hr].
    now apply unwritten_same_world.
  - intros s e s' Hrun. rewrite bind_run in Hrun. discriminate.
Qed.

Lemma sample_any_outcome (m : Model) (target : layer)
    (classes : list string) (dir : string) (x : tensor)
    (outputs : list (list Q)) (preds : list nat) (i : nat) (s : gc_state) :
  exists names,
    explains dir s
      (final (gradcam_sample m target classes dir x outputs preds i s))
      [] names.
Proof.
  destruct (gradcam_sample m target classes dir x outputs preds i s)
    as [[] s'|e s'] eqn:Hrun.
  - apply sample_explains in Hrun as (c & name & _ & _ & Hex).
    now exists [name].
  - exists []. eapply gradcam_sample_raise_unwritten. exact Hrun.
Qed.

Lemma for_each_any_outcome {A} (dir : string) (body : A -> M gc_state unit)
    (l : list A) :
  (forall x s, exists xs names,
     explains dir s (final (body x s)) xs names) ->
  forall s, exists xs names,
    explains dir s (final (for_each l body s)) xs names.
Proof.
  intros Hbody. induction l as [|x l IH]; intros s; simpl.
  - exists [], []. apply explains_refl.
  - rewrite bind_run. destruct (Hbody x s) as (xs1 & names1 & H1).
    destruct (body x s) as [[] s1|e s1]; simpl in *.
    + destruct (IH s1) as (xs2 & names2 & H2).
      exists (xs1 ++ xs2), (names1 ++ names2).
      eapply explains_trans; eassumption.
    + now exists xs1, names1.
Qed.

Lemma batch_any_outcome (m : Model) (target : layer)
    (classes : list string) (dir : string) (noise_multiplier : Q)
    (batch : tensor * list nat) (s : gc_state) :
  exists xs names,
    explains dir s
      (final (gradcam_batch m target classes dir noise_multiplier batch s))
      xs names.
Proof.
  unfold gradcam_batch. rewrite bind_run.
  destruct (perturb noise_multiplier batch.1 (env s)) as [x w1] eqn:Hp.
  assert (Hw1 : trace w1 = trace (env s) /\ dirs w1 = dirs (env s)).
  { unfold perturb in Hp.
    destruct (noise_step noise_multiplier batch.1 (gen (env s))).
    injection Hp as _ <-. split; reflexivity. }
  destruct Hw1 as [Htw Hdw].
  rewrite bind_run. unfold forward_hooked at 1.
  cbn [call_model env on_env gradients activations sample_idx].
  assert (Hfed : explains dir s
            {| env := emit (Forward x) w1; gradients := gradients s;
               activations := activations s ++ hooked_outputs m false target x;
               sample_idx := sample_idx s |} [x] []).
  { exists [Forward x]. cbn [env emit trace dirs sample_idx]. rewrite Htw, Hdw.
    repeat split; try reflexivity. simpl. lia. }
  rewrite bind_run.
  destruct (predictions (forward m false x)) as [e|preds].
  - now exists [x], [].
  - rewrite lift_inr.
    destruct (for_each_any_outcome dir
                (gradcam_sample m target classes dir x
                   (forward m false x) preds)
                (seq 0 (len x))
                (fun i s0 =>
                   let '(ex_intro _ names H) :=
                     sample_any_outcome m target classes dir x
                       (forward m false x) preds i s0 in
                   ex_intro _ [] (ex_intro _ names H))
                {| env := emit (Forward x) w1; gradients := gradients s;
                   activations :=
                     activations s ++ hooked_outputs m false target x;
                   sample_idx := sample_idx s |})
      as (xs & names & Hex).
    exists ([x] ++ xs), ([] ++ names).
    eapply explains_trans; eassumption.
Qed.

Lemma run_gradcam_any_outcome (m : Model)
    (test_loader : list (tensor * list nat)) (classes : list string)
    (dir : string) (noise_multiplier : Q) (w : world) :
  let r := run_gradcam m test_loader classes dir noise_multiplier w in
  exists tr names,
    trace (final r) = trace w ++ Makedirs dir :: tr /\
    map fst (written tr) = image_paths dir 0 names.
Proof.
  cbv zeta. unfold run_gradcam. cbv zeta.
  destruct (py_index (modules m) (-5)) as [e|target].
  - exists [], []. split; reflexivity.
  - destruct (for_each_any_outcome dir
                (gradcam_batch m target classes dir noise_multiplier)
                test_loader
                (batch_any_outcome m target classes dir noise_multiplier)
                (Gc (makedirs dir w) [] [] 0))
      as (xs & names & tr & Htr & _ & Hw & _ & _).
    cbn [env sample_idx makedirs emit trace] in Htr, Hw.
    exists tr, names. split; [|exact Hw].
    destruct (for_each test_loader _ _) as [[] s|e s]; simpl in *;
      rewrite Htr, <- app_assoc; reflexivity.
Qed.

Lemma write_images_app (ws1 ws2 : list (string * image))
    (f : gmap string (list line)) :
  write_images (ws1 ++ ws2) f = write_images ws2 (write_images ws1 f).
Proof. unfold write_images. apply foldl_app. Qed.

Lemma follows_refl (s : gc_state) : follows s s.
Proof. exists []. now rewrite app_nil_r. Qed.

Lemma follows_trans (s1 s2 s3 : gc_state) :
  follows s1 s2 -> follows s2 s3 -> follows s1 s3.
Proof.
  intros (t1 & Ht1 & Hf1) (t2 & Ht2 & Hf2). exists (t1 ++ t2). split.
  - rewrite Ht2, Ht1. now rewrite app_assoc.
  - rewrite written_app, write_images_app, Hf2, Hf1. reflexivity.
Qed.

Lemma follows_quiet (s s' : gc_state) (tr : list event) :
  trace (env s') = trace (env s) ++ tr -> written tr = [] ->
  files (env s') = files (env s) -> follows s s'.
Proof. intros Ht Hw Hf. exists tr. rewrite Hw. split; assumption. Qed.

Lemma stable_follows_sample (m : Model) (target : layer)
    (classes : list string) (dir : string) (x : tensor)
    (outputs : list (list Q)) (preds : list nat) (i : nat) :
  stable follows (gradcam_sample m target classes dir x outputs preds i).
Proof.
  pose proof follows_refl as Hr. pose proof follows_trans as Ht.
  unfold gradcam_sample.
  repeat first
    [ apply stable_lift; assumption
    | apply stable_get; assumption
    | apply stable_bind; [assumption | | intros ?] ].
  - intros s. eapply follows_quiet; simpl; reflexivity.
  - apply stable_for_each; [assumption..|]. intros j.
    unfold weighting_round.
    apply stable_bind; [assumption | now apply stable_lift |].
    intros wj s. unfold scale_channel.
    match goal with |- context [view ?l ?k i] => destruct (view l k i) as [t|] end;
      [|apply Hr].
    destruct (t !! j); [|apply Hr].
    apply (follows_quiet _ _ []); simpl; [now rewrite app_nil_r | reflexivity..].
  - apply stable_update. intros s. eexists. split; simpl; reflexivity.
  - apply stable_update. intros s.
    apply (follows_quiet _ _ []); simpl; [now rewrite app_nil_r | reflexivity..].
Qed.




(** X6: a sample on which the explainer fails leaves no image behind and
    does not advance the sample counter, and no file changes; in
    particular a sample whose predicted class has no name (a model with
    more outputs than classes) fails, and a sample beyond the rows of the
    logits fails with IndexError at once. *)
Theorem failing_sample_writes_no_image (m : Model) (target : layer)
    (classes : list string) (dir : string) (x : tensor)
    (outputs : list (list Q)) (preds : list nat) (i : nat) (s : gc_state) :
  let r := gradcam_sample m target classes dir x outputs preds i s in
  (returned r = false ->
   written (trace (env (final r))) = written (trace (env s)) /\
   sample_idx (final r) = sample_idx s /\
   files (env (final r)) = files (env s)) /\
  (forall c, preds !! i = Some c -> classes !! c = None ->
   returned r = false) /\
  (preds !! i = None -> r = Raise IndexError s).
Proof.
  cbv zeta. split; [|split].
  - intros Hret.
    pose proof (stable_follows_sample m target classes dir x outputs preds
                  i s) as (tr & Htr & Hfiles).
    destruct (gradcam_sample m target classes dir x outputs preds i s)
      as [[] s'|e s'] eqn:Hrun; [discriminate|].
    apply gradcam_sample_raise_unwritten in Hrun
      as (tr' & Htr' & _ & Hw & Hi & _).
    simpl in *. rewrite Htr' in Htr. apply app_inv_head in Htr. subst tr'.
    unfold image_paths in Hw. simpl in Hw. apply map_eq_nil in Hw.
    rewrite Htr', written_app, Hw, app_nil_r. rewrite Hw in Hfiles.
    repeat split; [lia | exact Hfiles].
  - intros c Hc Hname.
    destruct (gradcam_sample m target classes dir x outputs preds i s)
      as [[] s'|e s'] eqn:Hrun; [|reflexivity].
    apply sample_explains in Hrun as (c' & name & Hc' & Hname' & _).
    congruence.
  - intros Hnone. unfold gradcam_sample. rewrite bind_run.
    unfold index. now rewrite Hnone.
Qed.

(** X7: whatever the outcome of the explainer, also when it fails half
    way, the images written so far are numbered 0, 1, 2, ... without gap in
    the order they were written, all in the output directory and all at
    different paths. *)
Theorem images_numbered_without_gap (m : Model)
    (test_loader : list (tensor * list nat)) (classes : list string)
    (dir : string) (noise_multiplier : Q) (w : world) :
  let r := run_gradcam m test_loader classes dir noise_multiplier w in
  exists tr,
    trace (final r) = trace w ++ Makedirs dir :: tr /\
    NoDup (map fst (written tr)) /\
    forall k p, map fst (written tr) !! k = Some p ->
      exists name, p = path_join dir (gradcam_filename k name).
Proof.
  cbv zeta.
  destruct (run_gradcam_any_outcome m test_loader classes dir
              noise_multiplier w) as (tr & names & Htr & Hw).
  exists tr. split; [exact Htr|]. rewrite Hw.
  split; [apply image_paths_NoDup|].
  intros k p Hk. unfold image_paths in Hk.
  rewrite list_lookup_imap in Hk.
  destruct (names !! k) as [name|]; [|discriminate].
  injection Hk as <-. now exists name.
Qed.


(** ** More on the heatmap *)






Lemma nonpos_scale_map (w : Q) (h : map2d) :
  (w <= 0)%Q -> nonneg_map h -> nonpos_map (scale_map w h).
Proof.
  intros Hw. apply Forall_map_intro. intros r.
  apply Forall_map_intro. intros v Hv. simpl in Hv.
  assert (0 <= v * - w)%Q by (apply Qmult_le_0_compat; lra).
  assert (E : (v * w == - (v * - w))%Q) by ring. rewrite E. lra.
Qed.

Lemma nonpos_map2d_add (a b : map2d) :
  nonpos_map a -> nonpos_map b -> nonpos_map (map2d_add a b).
Proof.
  apply Forall_zip_with_intro. intros r1 r2.
  apply Forall_zip_with_intro. intros x y Hx Hy. simpl in *. lra.
Qed.

Lemma nonpos_channel_sum (c0 : map2d) (rest : tensor3) :
  nonpos_map c0 -> Forall nonpos_map rest ->
  nonpos_map (channel_sum c0 rest).
Proof.
  intros H0 Hrest. unfold channel_sum. revert c0 H0.
  induction Hrest as [|c rest Hc Hrest IH]; intros c0 H0; simpl.
  - exact H0.
  - apply IH. now apply nonpos_map2d_add.
Qed.

Lemma nonpos_channel_mean (t : tensor3) (avg : map2d) :
  Forall nonpos_map t -> channel_mean t = inr avg -> nonpos_map avg.
Proof.
  intros Ht Havg. destruct t as [|c0 rest]; [discriminate|].
  injection Havg as <-. inversion Ht; subst.
  assert (Hpos : (0 < inject_Z (Z.of_nat (length (c0 :: rest))))%Q).
  { change 0%Q with (inject_Z 0). rewrite <- Zlt_Qlt. simpl. lia. }
  eapply Forall_map_intro; [|now apply nonpos_channel_sum].
  intros r. apply Forall_map_intro. intros v Hv. simpl in Hv.
  apply Qle_shift_div_r; [exact Hpos | lra].
Qed.

Lemma nonpos_relu_zero (h : map2d) : nonpos_map h -> zero_map (relu h).
Proof.
  apply Forall_map_intro. intros r. apply Forall_map_intro.
  intros v Hv. simpl in Hv. symmetry. now apply Q.max_r.
Qed.

Lemma nonpos_weighted (a3 : tensor3) (ws : list Q) :
  Forall nonneg_map a3 -> Forall (fun w => (w <= 0)%Q) ws ->
  Forall nonpos_map (weighted a3 ws).
Proof.
  unfold weighted. apply Forall_zip_with_intro.
  intros ch w Hch Hw. now apply nonpos_scale_map.
Qed.

(** X10: when the captured activation of a sample has no negative entry
    (as after a ReLU) and none of its gradient channels has a positive
    mean, the heatmap written for the sample is blank: all of its entries
    are zero. *)
Theorem nonpositive_gradient_blank_heatmap (m : Model) (target : layer)
    (classes : list string) (dir : string) (x : tensor)
    (outputs : list (list Q)) (preds : list nat) (i : nat)
    (s s' : gc_state) (a4 g4 : tensor4) (a3 g3 : tensor3) (ws : list Q) :
  gradcam_sample m target classes dir x outputs preds i s = Ok tt s' ->
  last (activations s) = Some a4 -> a4 !! i = Some a3 ->
  last (gradients s') = Some g4 -> g4 !! i = Some g3 ->
  spatial_means g3 = inr ws ->
  length g3 = length a3 ->
  Forall nonneg_map a3 ->
  Forall (fun w => (w <= 0)%Q) ws ->
  exists p h,
    written (trace (env s')) = written (trace (env s)) ++ [(p, Heatmap_jet h)] /\
    zero_map h.
Proof.
  intros Hrun Ha4 Ha3 Hg4 Hg3 Hws Hlen Hnn Hnp.
  apply gradcam_sample_inv in Hrun
    as (c & row & logit & g4' & a4' & g3' & a3' & ws' & avg & top & name
        & _ & _ & _ & Hg4' & Hg3' & Hws' & Ha4' & Ha3' & _ & Havg
        & Htop & _ & ->).
  cbn [after_sample gradients] in Hg4.
  assert (g4' = g4) as -> by congruence.
  assert (a4' = a4) as -> by congruence.
  assert (g3' = g3) as -> by congruence.
  assert (a3' = a3) as -> by congruence.
  assert (ws' = ws) as -> by congruence.
  rewrite partly_weighted_all in Havg
    by (rewrite (spatial_means_length _ _ Hws); exact Hlen).
  eexists _, _. split; [apply written_after_sample|].
  apply divide_zero, nonpos_relu_zero.
  eapply nonpos_channel_mean; [|exact Havg].
  now apply nonpos_weighted.
Qed.

Lemma dims_entries (f : Q -> Q) (rows cols : nat) (h : map2d) :
  dims rows cols h -> dims rows cols (map (map f) h).
Proof.
  intros [Hr Hc]. split; [now rewrite length_map|].
  eapply Forall_map_intro; [|exact Hc]. intros r Hl. simpl in Hl.
  now rewrite length_map.
Qed.

Lemma dims_map2d_add (rows cols : nat) (a b : map2d) :
  dims rows cols a -> dims rows cols b -> dims rows cols (map2d_add a b).
Proof.
  intros [Hra Hca] [Hrb Hcb]. split.
  - unfold map2d_add. rewrite length_zip_with. lia.
  - eapply Forall_zip_with_intro; [|exact Hca|exact Hcb].
    intros r1 r2 H1 H2. simpl in *. rewrite length_zip_with. lia.
Qed.

Lemma dims_channel_sum (rows cols : nat) (c0 : map2d) (rest : tensor3) :
  dims rows cols c0 -> Forall (dims rows cols) rest ->
  dims rows cols (channel_sum c0 rest).
Proof.
  intros H0 Hrest. unfold channel_sum. revert c0 H0.
  induction Hrest as [|c rest Hc Hrest IH]; intros c0 H0; simpl.
  - exact H0.
  - apply IH. now apply dims_map2d_add.
Qed.

Lemma dims_partly_weighted (rows cols n : nat) (a3 : tensor3)
    (ws : list Q) :
  Forall (dims rows cols) a3 ->
  Forall (dims rows cols) (partly_weighted n a3 ws).
Proof.
  intros Hd. unfold partly_weighted. apply Forall_app. split.
  - unfold weighted.
    apply (Forall_zip_with_intro (dims rows cols) (fun _ => True)).
    + intros ch w Hch _. now apply dims_entries.
    + now apply Forall_take.
    + apply List.Forall_forall. trivial.
  - now apply Forall_drop.
Qed.

Lemma dims_entries_count (rows cols : nat) (h : map2d) :
  dims rows cols h -> length (concat h) = rows * cols.
Proof.
  intros [Hr Hc]. revert rows Hr.
  induction Hc as [|r l Hrl Hc IH]; intros rows Hr; simpl in *;
    [subst; reflexivity|].
  rewrite length_app, (IH (length l) eq_refl), Hrl. subst rows. lia.
Qed.

(** X11: when every channel of the captured activation of a sample is a
    map of h rows and w columns, so is the heatmap written for the sample
    (one entry per spatial position of the layer, before the resize). *)
Theorem heatmap_has_activation_dims (m : Model) (target : layer)
    (classes : list string) (dir : string) (x : tensor)
    (outputs : list (list Q)) (preds : list nat) (i : nat)
    (s s' : gc_state) (a4 : tensor4) (a3 : tensor3) (rows cols : nat) :
  gradcam_sample m target classes dir x outputs preds i s = Ok tt s' ->
  last (activations s) = Some a4 -> a4 !! i = Some a3 ->
  Forall (dims rows cols) a3 ->
  exists p h,
    written (trace (env s')) = written (trace (env s)) ++ [(p, Heatmap_jet h)] /\
    dims rows cols h /\ 0 < rows * cols.
Proof.
  intros Hrun Ha4 Ha3 Hd.
  apply gradcam_sample_inv in Hrun
    as (c & row & logit & g4' & a4' & g3' & a3' & ws & avg & top & name
        & _ & _ & _ & _ & _ & _ & Ha4' & Ha3' & _ & Havg & Htop & _ & ->).
  assert (a4' = a4) as -> by congruence.
  assert (a3' = a3) as -> by congruence.
  assert (Havgd : dims rows cols avg).
  { pose proof (dims_partly_weighted rows cols (length ws) a3 ws Hd) as Hp.
    destruct (partly_weighted (length ws) a3 ws) as [|c0 rest];
      [discriminate|].
    injection Havg as <-. inversion Hp; subst.
    apply dims_entries. now apply dims_channel_sum. }
  eexists _, _. split; [apply written_after_sample|].
  split; [unfold divide, relu; now do 2 apply dims_entries|].
  unfold max_entry in Htop.
  destruct (concat (relu avg)) as [|v rest] eqn:Hcat; [discriminate|].
  pose proof (dims_entries_count rows cols (relu avg)
                (dims_entries _ rows cols avg Havgd)) as Hlen.
  rewrite Hcat in Hlen. simpl in Hlen. lia.
Qed.

(** ** The loader *)

Lemma chunks_fuel_concat {A} (fuel n : nat) (l : list A) :
  0 < n -> length l <= fuel -> concat (chunks_fuel fuel n l) = l.
Proof.
  intros Hn. revert l. induction fuel as [|fuel IH]; intros l Hl.
  - destruct l; [reflexivity | simpl in Hl; lia].
  - destruct l as [|x l]; [reflexivity|].
    cbn [chunks_fuel concat]. rewrite IH.
    + apply take_drop.
    + rewrite length_drop. simpl in *. lia.
Qed.

Lemma chunks_fuel_sizes {A} (fuel n : nat) (l : list A) :
  0 < n ->
  Forall (fun c => 0 < length c <= n) (chunks_fuel fuel n l).
Proof.
  intros Hn. revert l. induction fuel as [|fuel IH]; intros l;
    [constructor|].
  destruct l as [|x l]; [constructor|].
  cbn [chunks_fuel]. constructor; [|apply IH].
  rewrite length_take. simpl. lia.
Qed.

Lemma chunks_fuel_full {A} (fuel n : nat) (l : list A) (i : nat)
    (c : list A) :
  0 < n -> length l <= fuel ->
  S i < length (chunks_fuel fuel n l) ->
  chunks_fuel fuel n l !! i = Some c -> length c = n.
Proof.
  intros Hn. revert l i. induction fuel as [|fuel IH]; intros l i Hl Hi Hc;
    [discriminate|].
  destruct l as [|x l]; [discriminate|].
  cbn [chunks_fuel] in Hi, Hc.
  destruct i as [|i].
  - injection Hc as <-. rewrite length_take.
    destruct (le_lt_dec n (length (x :: l))) as [Hge|Hlt]; [lia|].
    exfalso. rewrite drop_ge in Hi by lia.
    destruct fuel; simpl in Hi; lia.
  - simpl in Hc, Hi. eapply (IH (drop n (x :: l)) i); try eassumption.
    + rewrite length_drop. simpl in *. lia.
    + lia.
Qed.

Lemma chunks_fuel_count {A} (fuel n : nat) (l : list A) :
  0 < n -> length l <= fuel ->
  length l <= length (chunks_fuel fuel n l) * n < length l + n.
Proof.
  intros Hn. revert l. induction fuel as [|fuel IH]; intros l Hl.
  - destruct l; simpl in *; lia.
  - destruct l as [|x l]; [simpl; lia|].
    cbn [chunks_fuel length].
    assert (Hd : length (drop n (x :: l)) <= fuel)
      by (rewrite length_drop; simpl in *; lia).
    specialize (IH _ Hd). rewrite length_drop in IH.
    remember (length (chunks_fuel fuel n (drop n (x :: l)))) as k eqn:Hk.
    clear Hk Hd. simpl in *.
    destruct (le_lt_dec n (S (length l))) as [Hge|Hlt]; [lia|].
    assert (k = 0) as -> by nia. lia.
Qed.

Lemma concat_map_snd_chunks {A B} (cs : list (list (A * B))) :
  concat (map (fun c => map snd c) cs) = map snd (concat cs).
Proof.
  induction cs as [|c cs IH]; simpl; [reflexivity|].
  now rewrite IH, map_app.
Qed.

Lemma concat_map_data_chunks {A B} (cs : list (list (list A * B))) :
  concat (map (fun c => concat (map fst c)) cs) =
  concat (map fst (concat cs)).
Proof.
  induction cs as [|c cs IH]; simpl; [reflexivity|].
  now rewrite IH, map_app, concat_app.
Qed.

Lemma sum_lengths_concat {A} (cs : list (list A)) :
  sum_list (map length cs) = length (concat cs).
Proof.
  induction cs as [|c cs IH]; simpl; [reflexivity|].
  now rewrite IH, length_app.
Qed.

(** X12: the loader yields the samples of the data set in their order,
    each exactly once: the labels and the normalised pixels of its batches,
    put end to end, are those of the data set.  Every batch holds between
    1 and 32 samples, as many labels as samples, and all batches but the
    last hold exactly 32; their number is the data set size divided by 32,
    rounded up. *)
Theorem loader_covers_dataset (num_channels : nat)
    (dataset : list (list Q * nat)) (classes : list string) :
  let loader := (get_test_loader num_channels dataset classes).1 in
  (get_test_loader num_channels dataset classes).2 = classes /\
  concat (map snd loader) = map snd dataset /\
  concat (map (fun b => data b.1) loader) =
    concat (map (fun smp => map loader_normalize smp.1) dataset) /\
  Forall (fun b => 0 < len b.1 <= 32 /\ length b.2 = len b.1 /\
                   shape b.1 = [len b.1; num_channels; 224; 224]) loader /\
  (forall i b, S i < length loader -> loader !! i = Some b ->
     len b.1 = 32) /\
  length dataset <= length loader * 32 < length dataset + 32 /\
  sum_list (map (fun b => len b.1) loader) = length dataset.
Proof.
  cbv zeta. unfold get_test_loader, chunks. cbn [fst snd].
  set (ds := map transform dataset).
  assert (Hlen : length ds = length dataset) by apply length_map.
  assert (Hcat : concat (chunks_fuel (length ds) batch_size ds) = ds)
    by (apply chunks_fuel_concat; [unfold batch_size; lia | lia]).
  split; [reflexivity|].
  split.
  { rewrite map_map. cbn [collate snd].
    rewrite concat_map_snd_chunks, Hcat. unfold ds. rewrite map_map.
    reflexivity. }
  split.
  { rewrite map_map. cbn [collate fst data].
    rewrite concat_map_data_chunks, Hcat. unfold ds. rewrite map_map.
    reflexivity. }
  split.
  { eapply Forall_map_intro;
      [|apply (chunks_fuel_sizes (length ds) batch_size ds);
        unfold batch_size; lia].
    intros c Hc. simpl in Hc. cbn [collate fst snd len shape hd].
    rewrite length_map. unfold batch_size in Hc.
    split; [lia|]. split; reflexivity. }
  split.
  { intros i b Hi Hb. rewrite length_map in Hi.
    rewrite list_lookup_fmap in Hb.
    destruct (chunks_fuel (length ds) batch_size ds !! i) as [c|] eqn:Hc;
      [|discriminate].
    injection Hb as <-. cbn [collate fst len shape hd].
    eapply (chunks_fuel_full (length ds) batch_size ds i c);
      [unfold batch_size; lia | lia | exact Hi | exact Hc]. }
  split.
  { rewrite length_map, <- Hlen.
    apply (chunks_fuel_count (length ds) batch_size ds);
      [unfold batch_size; lia | lia]. }
  rewrite map_map. cbn [collate fst len shape hd].
  rewrite sum_lengths_concat, Hcat. exact Hlen.
Qed.

Lemma chunks_fuel_Forall {A} (P : A -> Prop) (fuel n : nat) (l : list A) :
  Forall P l -> Forall (Forall P) (chunks_fuel fuel n l).
Proof.
  revert l. induction fuel as [|fuel IH]; intros l Hl; [constructor|].
  destruct l as [|x l]; [constructor|]. cbn [chunks_fuel].
  constructor; [now apply Forall_take | apply IH; now apply Forall_drop].
Qed.

(** X13: when every pixel of the data set lies in [0, 1], as [ToTensor]
    yields them, every entry of every batch of the loader lies in
    [-1, 1]. *)
Theorem loader_entries_in_range (num_channels : nat)
    (dataset : list (list Q * nat)) (classes : list string) :
  Forall (fun smp => Forall in_unit smp.1) dataset ->
  Forall (fun b => Forall (fun v => (-1 <= v)%Q /\ (v <= 1)%Q) (data b.1))
    (get_test_loader num_channels dataset classes).1.
Proof.
  intros Hunit. unfold get_test_loader, chunks. cbn [fst].
  set (ds := map transform dataset).
  assert (Hds : Forall (fun smp =>
             Forall (fun v => (-1 <= v)%Q /\ (v <= 1)%Q) smp.1) ds).
  { unfold ds. eapply Forall_map_intro; [|exact Hunit].
    intros [px y] Hpx. cbn [transform fst] in *.
    eapply Forall_map_intro; [|exact Hpx].
    intros v [H0 H1]. rewrite loader_normalize_affine. split; lra. }
  eapply Forall_map_intro;
    [|apply (chunks_fuel_Forall _ (length ds) batch_size ds Hds)].
  intros c Hc. cbn [collate fst data]. simpl in Hc.
  apply Forall_concat. eapply Forall_map_intro; [|exact Hc].
  intros smp Hsmp. exact Hsmp.
Qed.

(** ** Both procedures on the loader *)

Lemma loader_labels (num_channels : nat) (dataset : list (list Q * nat))
    (classes : list string) :
  concat (map snd (get_test_loader num_channels dataset classes).1) =
  map snd dataset.
Proof.
  unfold get_test_loader, chunks. cbn [fst].
  rewrite map_map. cbn [collate snd].
  rewrite concat_map_snd_chunks, chunks_fuel_concat
    by (unfold batch_size; lia).
  now rewrite map_map.
Qed.

Lemma loader_samples (num_channels : nat) (dataset : list (list Q * nat))
    (classes : list string) :
  sum_list (map (fun b => len b.1)
              (get_test_loader num_channels dataset classes).1) =
  length dataset.
Proof.
  unfold get_test_loader, chunks. cbn [fst].
  rewrite map_map. cbn [collate fst len shape hd].
  rewrite sum_lengths_concat, chunks_fuel_concat
    by (unfold batch_size; lia).
  apply length_map.
Qed.

Lemma batches_explain_shapes (m : Model) (target : layer)
    (classes : list string) (dir : string) (noise_multiplier : Q)
    (loader : list (tensor * list nat)) (s s' : gc_state) :
  for_each loader (gradcam_batch m target classes dir noise_multiplier) s
    = Ok tt s' ->
  exists xs names,
    Forall2 (fun b x => shape x = shape b.1) loader xs /\
    length names = sum_list (map len xs) /\
    explains dir s s' xs names.
Proof.
  revert s. induction loader as [|batch loader IH]; intros s Hrun.
  - injection Hrun as <-. exists [], [].
    repeat split; try constructor. apply explains_refl.
  - simpl in Hrun. rewrite bind_run in Hrun.
    destruct (gradcam_batch m target classes dir noise_multiplier batch s)
      as [[] s1|e s1] eqn:Hbatch; [|discriminate].
    apply batch_explains in Hbatch
      as (x & preds & names1 & Hx & _ & Hlen1 & _ & _ & Hex1).
    apply IH in Hrun as (xs & names2 & Hsh & Hsum & Hex2).
    exists (x :: xs), (names1 ++ names2). repeat split.
    + constructor; [|exact Hsh]. rewrite Hx. apply perturb_shape.
    + rewrite length_app. simpl. lia.
    + exact (explains_trans dir s s1 s' [x] xs names1 names2 Hex1 Hex2).
Qed.

Lemma same_shapes_same_len (loader : list (tensor * list nat))
    (xs : list tensor) :
  Forall2 (fun b x => shape x = shape b.1) loader xs ->
  map len xs = map (fun b => len b.1) loader.
Proof.
  induction 1 as [|b x loader xs Hsh _ IH]; simpl; [reflexivity|].
  rewrite IH. unfold len. now rewrite Hsh.
Qed.

(** X14: run on the loader of a data set, both procedures cover every
    sample exactly once when they return: the explainer writes as many
    images as the data set has samples (with or without noise), and the
    entries of the confusion matrix that the evaluation plots add up to
    the number of samples. *)
Theorem every_sample_once (m : Model) (scores : scorer) (num_channels : nat)
    (dataset : list (list Q * nat)) (classes : list string)
    (dir cm_path metrics_path : string) (noise_multiplier : Q)
    (w w' : world) :
  let loader := (get_test_loader num_channels dataset classes).1 in
  (run_gradcam m loader classes dir noise_multiplier w = Ok tt w' ->
   exists tr,
     trace w' = trace w ++ Makedirs dir :: tr /\
     length (written tr) = length dataset) /\
  (run_inferece m scores loader classes cm_path metrics_path
     noise_multiplier w = Ok tt w' ->
   exists cm,
     files w' !! cm_path =
       Some [Raster (Confusion_plot cm classes noise_multiplier)] /\
     sum_list (map sum_list cm) = length dataset).
Proof.
  cbv zeta. split.
  - intros Hrun. unfold run_gradcam in Hrun. cbv zeta in Hrun.
    destruct (py_index (modules m) (-5)) as [e|target]; [discriminate|].
    destruct (for_each _ _ _) as [[] s|e s] eqn:Hloop; [|discriminate].
    injection Hrun as <-.
    apply batches_explain_shapes in Hloop
      as (xs & names & Hsh & Hsum & tr & Htr & _ & Hw & _ & _).
    cbn [env makedirs emit trace] in Htr.
    exists tr. split; [now rewrite Htr, <- app_assoc|].
    rewrite <- (length_map fst (written tr)), Hw.
    unfold image_paths. rewrite length_imap, Hsum.
    rewrite (same_shapes_same_len _ _ Hsh). apply loader_samples.
  - intros Hrun.
    apply run_inferece_inv in Hrun
      as (ap & al & w1 & cm & Hloop & _ & Hcm & ->).
    apply eval_batches_collect in Hloop as (Hal & _).
    exists cm. split; [simpl; apply lookup_insert_eq|].
    rewrite (proj1 (confusion_matrix_total _ _ _ Hcm)), Hal, app_nil_l.
    now rewrite loader_labels, length_map.
Qed.

(** ** More on the noise *)



(** ** What is fed to the model, and the generator *)











(** ** The output directory *)

Lemma ends_with_sep_app (d : string) : ends_with_sep (d +:+ "/") = true.
Proof.
  induction d as [|c d IH]; [reflexivity|].
  simpl. destruct (d +:+ "/") eqn:E; [destruct d; discriminate|].
  exact IH.
Qed.

Lemma string_app_assoc (a b c : string) : (a +:+ b) +:+ c = a +:+ b +:+ c.
Proof.
  induction a as [|x a IH]; [reflexivity|].
  change (String x ((a +:+ b) +:+ c) = String x (a +:+ b +:+ c)).
  now rewrite IH.
Qed.

Lemma string_app_not_empty (d : string) :
  String.eqb (d +:+ "/") EmptyString = false.
Proof. destruct d; reflexivity. Qed.

(** X17: it makes no difference whether the output directory is given
    with or without a trailing separator: for a directory name that is not
    empty, every image path is the same in both cases, the directory, one
    separator and the file name. *)
Theorem trailing_separator_is_irrelevant (dir : string) (k : nat)
    (name : string) :
  dir <> EmptyString -> ends_with_sep dir = false ->
  path_join (dir +:+ "/") (gradcam_filename k name) =
    path_join dir (gradcam_filename k name) /\
  path_join dir (gradcam_filename k name) =
    dir +:+ "/" +:+ gradcam_filename k name.
Proof.
  intros Hne Hsep. rewrite !path_join_filename.
  rewrite ends_with_sep_app, string_app_not_empty, Hsep.
  destruct dir as [|c d]; [contradiction|]. cbn [String.eqb orb].
  split; [apply string_app_assoc | reflexivity].
Qed.

(** * The further properties on the small data *)

Import Example_more.

Lemma predictions_first_maximum_witness :
  predictions [[1; 3; 3]; [2]]%Q = inr [1; 0] /\
  Forall2 first_maximum [[1; 3; 3]; [2]]%Q [1; 0] /\
  exists preds, predictions [[1; 3; 3]; [2]]%Q = inr preds.
Proof.
  pose proof (predictions_first_maximum [[1; 3; 3]; [2]]%Q)
    as (Hok & _ & Hsome).
  split; [reflexivity|]. split; [apply Hok; reflexivity|].
  apply Hsome. repeat constructor; discriminate.
Defined.



Lemma run_inferece_matrix_witness :
  eval_returns = Ok tt (final eval_returns) /\
  exists cm,
    files (final eval_returns) !! plot0 =
      Some [Raster (Confusion_plot cm ["cat"] 0)] /\
    length cm = 1 /\ sum_list (map sum_list cm) = 1.
Proof.
  assert (H : eval_returns = Ok tt (final eval_returns))
    by (vm_compute; reflexivity).
  split; [exact H|].
  destruct (run_inferece_matrix m0 one_score loader0 ["cat"] plot0 csv0 0
              w0 (final eval_returns) H)
    as (xs & pss & cm & _ & _ & _ & _ & Hfile & Hlen & _ & Hsum).
  exists cm. repeat split; assumption.
Defined.


Lemma failing_sample_writes_no_image_witness :
  returned sample_unnamed = false /\
  written (trace (env (final sample_unnamed))) = written (trace (env s0)) /\
  sample_idx (final sample_unnamed) = 0.
Proof.
  pose proof (failing_sample_writes_no_image m0 11 [] dir0 x0 out0 [0] 0 s0)
    as (Hquiet & Hunnamed & _).
  assert (H : returned sample_unnamed = false)
    by (apply (Hunnamed 0); reflexivity).
  split; [exact H|].
  destruct (Hquiet H) as (Hw & Hi & _). split; assumption.
Defined.


Lemma nonpositive_gradient_blank_heatmap_witness :
  sample_neg = Ok tt (final sample_neg) /\
  exists p h,
    written (trace (env (final sample_neg))) = [(p, Heatmap_jet h)] /\
    zero_map h.
Proof.
  assert (H : sample_neg = Ok tt (final sample_neg))
    by (vm_compute; reflexivity).
  split; [exact H|].
  refine (nonpositive_gradient_blank_heatmap m_neg 11 classes0 dir0 x0 out0
            [0] 0 s0 (final sample_neg) a4_0
            [[[[-1; -1]]; [[0; -2]]]]%Q a3_0 [[[-1; -1]]; [[0; -2]]]%Q
            [-2 # 2; -2 # 2]%Q H _ _ _ _ _ _ _ _);
    try reflexivity.
  - repeat constructor; discriminate.
  - repeat constructor; discriminate.
Defined.

Lemma heatmap_has_activation_dims_witness :
  sample0 = Ok tt (final sample0) /\
  exists p h,
    written (trace (env (final sample0))) = [(p, Heatmap_jet h)] /\
    dims 1 2 h.
Proof.
  split; [exact sample0_returns|].
  destruct (heatmap_has_activation_dims m0 11 classes0 dir0 x0 out0 [0] 0
              s0 (final sample0) a4_0 a3_0 1 2 sample0_returns
              eq_refl eq_refl)
    as (p & h & Hw & Hd & _).
  - repeat constructor.
  - exists p, h. split; [exact Hw | exact Hd].
Defined.

Lemma loader_covers_dataset_witness :
  map (fun b => len b.1) (get_test_loader 1 ds33 classes0).1 = [32; 1] /\
  concat (map snd (get_test_loader 1 ds33 classes0).1) = map snd ds33 /\
  exists b, (get_test_loader 1 ds33 classes0).1 !! 0 = Some b /\
            len b.1 = 32.
Proof.
  pose proof (loader_covers_dataset 1 ds33 classes0)
    as (_ & Hlabels & _ & _ & Hfull & _).
  split; [vm_compute; reflexivity|]. split; [exact Hlabels|].
  destruct ((get_test_loader 1 ds33 classes0).1 !! 0) as [b|] eqn:Hb;
    [|vm_compute in Hb; discriminate].
  exists b. split; [reflexivity|].
  apply (Hfull 0 b); [vm_compute; lia | exact Hb].
Defined.

Lemma loader_entries_in_range_witness :
  Forall (fun b => Forall (fun v => (-1 <= v)%Q /\ (v <= 1)%Q) (data b.1))
    (get_test_loader 1 ds33 classes0).1.
Proof.
  apply (loader_entries_in_range 1 ds33 classes0).
  unfold ds33. apply Forall_app. split.
  - apply List.Forall_forall. intros smp Hin.
    apply repeat_spec in Hin. subst smp.
    repeat constructor; discriminate.
  - repeat constructor; discriminate.
Defined.

Lemma every_sample_once_witness :
  explain_ds1 = Ok tt (final explain_ds1) /\
  (exists tr,
     trace (final explain_ds1) = trace w0 ++ Makedirs dir0 :: tr /\
     length (written tr) = 1) /\
  eval_ds1 = Ok tt (final eval_ds1) /\
  exists cm,
    files (final eval_ds1) !! plot0 =
      Some [Raster (Confusion_plot cm ["cat"] 0)] /\
    sum_list (map sum_list cm) = 1.
Proof.
  assert (H1 : explain_ds1 = Ok tt (final explain_ds1))
    by (vm_compute; reflexivity).
  assert (H2 : eval_ds1 = Ok tt (final eval_ds1))
    by (vm_compute; reflexivity).
  split; [exact H1|]. split.
  - exact (proj1 (every_sample_once m0 one_score 1 ds1 classes0 dir0 plot0
                    csv0 0 w0 (final explain_ds1)) H1).
  - split; [exact H2|].
    exact (proj2 (every_sample_once m0 one_score 1 ds1 ["cat"] dir0 plot0
                    csv0 0 w0 (final eval_ds1)) H2).
Defined.



Lemma trailing_separator_is_irrelevant_witness :
  path_join "out/gradcam/" (gradcam_filename 0 "cat") =
    path_join "out/gradcam" (gradcam_filename 0 "cat") /\
  path_join "out/gradcam" (gradcam_filename 0 "cat") = png0.
Proof.
  destruct (trailing_separator_is_irrelevant "out/gradcam" 0 "cat")
    as [H1 H2]; [discriminate | reflexivity |].
  split; [exact H1 | rewrite H2; reflexivity].
Defined.
